(** * rcon-by-vincent: the RCON client of [src/app/main.js]

    A shallow embedding of the program's global connection state
    ([rconReady], [rcon]), of the event emitters it listens on, of the
    closures that [sendGamemode] creates and of the timers it arms,
    followed by the properties of the command/response exchange. *)

From Stdlib Require Import String Ascii.
From Stdlib Require Import List ZArith NArith Bool Lia Arith Sorted.
Import ListNotations.

Set Implicit Arguments.

(** ** JavaScript strings

    A JavaScript string is a sequence of UTF-16 code units. *)

Definition jsstring := list N.

Definition js (s : string) : jsstring :=
  map N_of_ascii (list_ascii_of_string s).

Definition jsstring_eqb (a b : jsstring) : bool :=
  if list_eq_dec N.eq_dec a b then true else false.

(** ** Event emitters (the [Rcon] objects)

    The functions the program registers as listeners.  [FOnResponse k] and
    [FOnError k] are the closures [onResponse] and [onError] of the [k]-th
    activation of [sendGamemode]. *)

Inductive evname := EvAuth | EvResponse | EvError | EvEnd.

Inductive fn :=
| FAuth          (* main.js 25-28 *)
| FLogResponse   (* main.js 30-33 *)
| FLogError      (* main.js 35-37 *)
| FEnd           (* main.js 39-43 *)
| FOnResponse (k : nat)  (* main.js 109-113 *)
| FOnError (k : nat).    (* main.js 114-118 *)

Definition evname_eqb (a b : evname) : bool :=
  match a, b with
  | EvAuth, EvAuth | EvResponse, EvResponse
  | EvError, EvError | EvEnd, EvEnd => true
  | _, _ => false
  end.

Definition fn_eqb (a b : fn) : bool :=
  match a, b with
  | FAuth, FAuth | FLogResponse, FLogResponse
  | FLogError, FLogError | FEnd, FEnd => true
  | FOnResponse i, FOnResponse j => Nat.eqb i j
  | FOnError i, FOnError j => Nat.eqb i j
  | _, _ => false
  end.

(** One registration: the event name, whether it was made with [once], and
    the function.  An emitter keeps its registrations in the order they were
    made. *)
Record listener := Listener {
  l_event : evname;
  l_once : bool;
  l_fn : fn
}.

Definition emitter := list listener.

Definition matches (ev : evname) (f : fn) (l : listener) : bool :=
  evname_eqb (l_event l) ev && fn_eqb (l_fn l) f.

(** Drops the first registration satisfying [p]. *)
Fixpoint remove_first (p : listener -> bool) (e : emitter) : emitter :=
  match e with
  | [] => []
  | l :: e' => if p l then e' else l :: remove_first p e'
  end.

(** [emitter.removeListener(ev, f)]: the most recently added registration
    of [f] for [ev] is dropped, if there is one. *)
Definition em_removeListener (ev : evname) (f : fn) (e : emitter) : emitter :=
  rev (remove_first (matches ev f) (rev e)).

Definition em_add (ev : evname) (once : bool) (f : fn) (e : emitter) : emitter :=
  e ++ [Listener ev once f].

(** The registrations that [emit(ev)] will call, in order. *)
Definition em_listeners (ev : evname) (e : emitter) : list listener :=
  filter (fun l => evname_eqb (l_event l) ev) e.

(** ** Program state *)

(** What the completion callback of [sendGamemode] was called with:
    [callback(err)] or [callback(null, resp)]. *)
Inductive cbarg :=
| CbError (message : jsstring)
| CbOk (resp : jsstring).

(** The function handed to [setTimeout]. *)
Inductive timer_fn :=
| TReconnect              (* setTimeout(connectRcon, 5000), main.js 42 *)
| TCmdTimeout (k : nat).  (* the fallback timeout of activation k, main.js 131-138 *)

Record timer := Timer {
  t_id : nat;
  t_due : Z;
  t_fn : timer_fn
}.

Inductive logline :=
| LogConnected
| LogResponse (str : jsstring)
| LogError (err : jsstring)
| LogDisconnected.

Record state := State {
  rconReady : bool;
  (** the global [rcon]: index into [objects] of the current Rcon object *)
  rcon : nat;
  (** every Rcon object constructed so far, with its registrations *)
  objects : list emitter;
  (** one entry per activation of [sendGamemode]: [None] when it returned
      at the guard of line 105, otherwise the current value of its local
      variable [handled] *)
  handled : list (option bool);
  (** timers armed and not yet fired, in the order they were armed *)
  timers : list timer;
  ntimers : nat;
  (** the clock, in milliseconds *)
  now : Z;
  (** observable trace *)
  sent : list (nat * jsstring);       (* rcon.send(cmd) that returned: object, cmd *)
  callbacks : list (nat * cbarg);     (* completion callback calls: activation, argument *)
  connects : list (Z * nat);          (* rcon.connect(): time, object *)
  fired : list (nat * Z);             (* timers run: id, time *)
  console : list logline
}.

Definition set_rconReady b st :=
  State b (rcon st) (objects st) (handled st) (timers st) (ntimers st) (now st)
        (sent st) (callbacks st) (connects st) (fired st) (console st).
Definition set_rcon o st :=
  State (rconReady st) o (objects st) (handled st) (timers st) (ntimers st) (now st)
        (sent st) (callbacks st) (connects st) (fired st) (console st).
Definition set_objects os st :=
  State (rconReady st) (rcon st) os (handled st) (timers st) (ntimers st) (now st)
        (sent st) (callbacks st) (connects st) (fired st) (console st).
Definition set_handled h st :=
  State (rconReady st) (rcon st) (objects st) h (timers st) (ntimers st) (now st)
        (sent st) (callbacks st) (connects st) (fired st) (console st).
Definition set_timers ts st :=
  State (rconReady st) (rcon st) (objects st) (handled st) ts (ntimers st) (now st)
        (sent st) (callbacks st) (connects st) (fired st) (console st).
Definition set_ntimers n st :=
  State (rconReady st) (rcon st) (objects st) (handled st) (timers st) n (now st)
        (sent st) (callbacks st) (connects st) (fired st) (console st).
Definition set_now t st :=
  State (rconReady st) (rcon st) (objects st) (handled st) (timers st) (ntimers st) t
        (sent st) (callbacks st) (connects st) (fired st) (console st).
Definition set_sent s st :=
  State (rconReady st) (rcon st) (objects st) (handled st) (timers st) (ntimers st) (now st)
        s (callbacks st) (connects st) (fired st) (console st).
Definition set_callbacks c st :=
  State (rconReady st) (rcon st) (objects st) (handled st) (timers st) (ntimers st) (now st)
        (sent st) c (connects st) (fired st) (console st).
Definition set_connects c st :=
  State (rconReady st) (rcon st) (objects st) (handled st) (timers st) (ntimers st) (now st)
        (sent st) (callbacks st) c (fired st) (console st).
Definition set_fired f st :=
  State (rconReady st) (rcon st) (objects st) (handled st) (timers st) (ntimers st) (now st)
        (sent st) (callbacks st) (connects st) f (console st).
Definition set_console c st :=
  State (rconReady st) (rcon st) (objects st) (handled st) (timers st) (ntimers st) (now st)
        (sent st) (callbacks st) (connects st) (fired st) c.

(** Replaces the [i]-th element; nothing happens when [i] is out of range. *)
Fixpoint update {A} (i : nat) (x : A) (l : list A) : list A :=
  match l, i with
  | [], _ => []
  | _ :: l', O => x :: l'
  | y :: l', S i' => y :: update i' x l'
  end.

Definition object (o : nat) (st : state) : emitter :=
  nth o (objects st) [].

Definition with_object (o : nat) (f : emitter -> emitter) (st : state) : state :=
  set_objects (update o (f (object o st)) (objects st)) st.

(** ** Primitive effects *)

Definition console_log (l : logline) (st : state) : state :=
  set_console (console st ++ [l]) st.

(** [setTimeout(f, delay)] *)
Definition setTimeout (f : timer_fn) (delay : Z) (st : state) : state :=
  set_ntimers (S (ntimers st))
    (set_timers (timers st ++ [Timer (ntimers st) (now st + delay)%Z f]) st).

(** [callback(...)] of activation [k] *)
Definition callback (k : nat) (a : cbarg) (st : state) : state :=
  set_callbacks (callbacks st ++ [(k, a)]) st.

Definition on (o : nat) (ev : evname) (f : fn) : state -> state :=
  with_object o (em_add ev false f).
Definition once (o : nat) (ev : evname) (f : fn) : state -> state :=
  with_object o (em_add ev true f).
Definition removeListener (o : nat) (ev : evname) (f : fn) : state -> state :=
  with_object o (em_removeListener ev f).

Definition get_handled (k : nat) (st : state) : option bool :=
  match nth_error (handled st) k with
  | Some (Some b) => Some b
  | _ => None
  end.

Definition put_handled (k : nat) (b : bool) (st : state) : state :=
  set_handled (update k (Some b) (handled st)) st.

(** ** The program *)

Definition RECONNECT_DELAY : Z := 5000.
Definition COMMAND_TIMEOUT : Z := 5000.

(** [onResponse] and [onError] (main.js 109-118) share their shape. *)
Definition resolve_once (k : nat) (a : cbarg) (st : state) : state :=
  match get_handled k st with
  | Some false => callback k a (put_handled k true st)
  | _ => st
  end.

(** The body of each listener, applied to the value the event carries. *)
Definition run_fn (f : fn) (payload : jsstring) (st : state) : state :=
  match f with
  | FAuth => console_log LogConnected (set_rconReady true st)
  | FLogResponse => console_log (LogResponse payload) st
  | FLogError => console_log (LogError payload) st
  | FEnd =>
      setTimeout TReconnect RECONNECT_DELAY
        (set_rconReady false (console_log LogDisconnected st))
  | FOnResponse k => resolve_once k (CbOk payload) st
  | FOnError k => resolve_once k (CbError payload) st
  end.

(** A [once] registration unregisters itself before it runs its function.
    (The program registers each closure once, so dropping the latest
    registration of the function drops this one.) *)
Definition invoke (o : nat) (payload : jsstring) (st : state) (l : listener) : state :=
  let st1 :=
    if l_once l then removeListener o (l_event l) (l_fn l) st else st in
  run_fn (l_fn l) payload st1.

(** [object.emit(ev, payload)]: the registrations present when the event is
    emitted are called in registration order.  An object that does not
    exist has no registrations. *)
Definition emit (o : nat) (ev : evname) (payload : jsstring) (st : state) : state :=
  fold_left (invoke o payload) (em_listeners ev (object o st)) st.

(** [connectRcon] (main.js 22-46) *)
Definition connectRcon (st : state) : state :=
  let o := length (objects st) in
  let st := set_rcon o (set_objects (objects st ++ [[]]) st) in
  let st := on o EvAuth FAuth st in
  let st := on o EvResponse FLogResponse st in
  let st := on o EvError FLogError st in
  let st := on o EvEnd FEnd st in
  set_connects (connects st ++ [(now st, o)]) st.

(** [sendGamemode(username, callback)] (main.js 104-139).  [throws] says
    whether [rcon.send(cmd)] throws, and what. *)
Definition sendGamemode (username : jsstring) (throws : option jsstring)
    (st : state) : state :=
  let k := length (handled st) in
  if negb (rconReady st) then
    callback k (CbError (js "RCON not connected"))
      (set_handled (handled st ++ [None]) st)
  else
    let cmd := js "gamemode survival " ++ username in
    let st := set_handled (handled st ++ [Some false]) st in
    let st := once (rcon st) EvResponse (FOnResponse k) st in
    let st := once (rcon st) EvError (FOnError k) st in
    let st :=
      match throws with
      | None => set_sent (sent st ++ [(rcon st, cmd)]) st
      | Some e =>
          callback k (CbError e)
            (removeListener (rcon st) EvError (FOnError k)
               (removeListener (rcon st) EvResponse (FOnResponse k) st))
      end in
    setTimeout (TCmdTimeout k) COMMAND_TIMEOUT st.

(** What a timer does when it fires. *)
Definition run_timer (f : timer_fn) (st : state) : state :=
  match f with
  | TReconnect => connectRcon st
  | TCmdTimeout k =>
      match get_handled k st with
      | Some false =>
          callback k (CbError (js "RCON command timeout"))
            (removeListener (rcon st) EvError (FOnError k)
               (removeListener (rcon st) EvResponse (FOnResponse k)
                  (put_handled k true st)))
      | _ => st
      end
  end.

Definition fire (st : state) (t : timer) : state :=
  let st := set_fired (fired st ++ [(t_id t, t_due t)]) (set_now (t_due t) st) in
  run_timer (t_fn t) st.

Definition is_due (target : Z) (t : timer) : bool := (t_due t <=? target)%Z.

(** [d] milliseconds pass.  Every timer of the program is armed with the
    same delay, so the queue is in firing order (lemma [timers_sorted]);
    those that fall due run in that order, each at its own due time, and
    none of them arms another. *)
Definition elapse (d : Z) (st : state) : state :=
  let target := (now st + Z.max 0 d)%Z in
  let due := filter (is_due target) (timers st) in
  let rest := filter (fun t => negb (is_due target t)) (timers st) in
  set_now target (fold_left fire due (set_timers rest st)).

(** ** The event loop

    What can happen to the program: a caller runs [sendGamemode], the rcon
    library emits an event on one of the Rcon objects, or time passes. *)

Inductive event :=
| Call (username : jsstring) (throws : option jsstring)  (* what send throws, if it does *)
| Emit (o : nat) (ev : evname) (payload : jsstring)
| Elapse (d : Z).

Definition step (st : state) (e : event) : state :=
  match e with
  | Call username throws => sendGamemode username throws st
  | Emit o ev payload => emit o ev payload st
  | Elapse d => elapse d st
  end.

Definition run (evs : list event) (st : state) : state :=
  fold_left step evs st.

Definition empty_state : state :=
  State false 0 [] [] [] 0 0%Z [] [] [] [] [].

(** The state after the module has been loaded: [connectRcon()] at line 48. *)
Definition init : state := connectRcon empty_state.

Definition reachable (st : state) : Prop :=
  exists evs, st = run evs init.

(** ** The request handler (main.js 141-198) *)

(** Code units that [String.prototype.trim] strips: WhiteSpace and
    LineTerminator of the language specification. *)
Definition is_js_space (c : N) : bool :=
  ((9 <=? c) && (c <=? 13) || (c =? 32) || (c =? 160) || (c =? 5760)
   || (8192 <=? c) && (c <=? 8202) || (c =? 8232) || (c =? 8233)
   || (c =? 8239) || (c =? 8287) || (c =? 12288) || (c =? 65279))%N.

Fixpoint trim_start (s : jsstring) : jsstring :=
  match s with
  | c :: s' => if is_js_space c then trim_start s' else s
  | [] => []
  end.

Definition trim (s : jsstring) : jsstring :=
  rev (trim_start (rev (trim_start s))).

(** The character class [[A-Za-z0-9_]]. *)
Definition is_name_char (c : N) : bool :=
  ((65 <=? c) && (c <=? 90) || (97 <=? c) && (c <=? 122)
   || (48 <=? c) && (c <=? 57) || (c =? 95))%N.

(** [/^[A-Za-z0-9_]{3,16}$/.test(username)] *)
Definition valid_username (username : jsstring) : bool :=
  (3 <=? length username) && (length username <=? 16)
  && forallb is_name_char username.

(** A request, with the two form fields as [URLSearchParams.get] returns
    them ([None] for [null]). *)
Record request := Request {
  req_method : jsstring;
  req_url : jsstring;
  param_username : option jsstring;
  param_password : option jsstring
}.

(** [x || ''] *)
Definition or_empty (x : option jsstring) : jsstring :=
  match x with Some s => s | None => [] end.

(** What the handler does with the response: it writes a status at once, or
    leaves the answer to the completion callback of activation [k]. *)
Inductive http_outcome :=
| Status (code : nat)
| Deferred (k : nat).

(** The handler, from the point where the body has been read and parsed.
    The completion callback it passes to [sendGamemode] (lines 180-191)
    writes the answer and touches nothing of the RCON state; it is the
    callback of activation [k] in [callbacks]. *)
Definition handle_request (AUTH_PASSWORD : jsstring) (req : request)
    (throws : option jsstring) (st : state) : state * http_outcome :=
  if jsstring_eqb (req_method req) (js "GET") && jsstring_eqb (req_url req) (js "/")
  then (st, Status 200)
  else if jsstring_eqb (req_method req) (js "POST")
          && jsstring_eqb (req_url req) (js "/set")
  then
    let username := trim (or_empty (param_username req)) in
    let password := or_empty (param_password req) in
    if jsstring_eqb AUTH_PASSWORD [] then (st, Status 500)
    else if negb (jsstring_eqb password AUTH_PASSWORD) then (st, Status 403)
    else if negb (valid_username username) then (st, Status 400)
    else if negb (rconReady st) then (st, Status 503)
    else (sendGamemode username throws st, Deferred (length (handled st)))
  else (st, Status 404).

(** ** The page (main.js 50-102) *)

Definition dq : jsstring := [34%N].
Definition nl : jsstring := [10%N].

(** [s.replace(/c/g, by)] for a single character [c] and a replacement
    text without [$]. *)
Definition replace_all (c : N) (by_ : jsstring) (s : jsstring) : jsstring :=
  flat_map (fun x => if (x =? c)%N then by_ else [x]) s.

(** [s.startsWith(p)] *)
Fixpoint starts_with (p s : jsstring) : bool :=
  match p, s with
  | [], _ => true
  | a :: p', b :: s' => (a =? b)%N && starts_with p' s'
  | _ :: _, [] => false
  end.

(** The template literals, line by line. *)
Definition prefersDarkMode : jsstring :=
  nl ++
  js "        @media (prefers-color-scheme: dark) {" ++ nl ++
  js "            body {" ++ nl ++
  js "                background-color: #121212;" ++ nl ++
  js "                color: #e0e0e0;" ++ nl ++
  js "            }" ++ nl ++
  js "            input, button {" ++ nl ++
  js "                background-color: #333;" ++ nl ++
  js "                color: #e0e0e0;" ++ nl ++
  js "                border: 1px solid #444;" ++ nl ++
  js "            }" ++ nl ++
  js "            input:focus, button:focus {" ++ nl ++
  js "                outline: 2px solid #555;" ++ nl ++
  js "            }" ++ nl ++
  js "            .msg {" ++ nl ++
  js "                color: #c00;" ++ nl ++
  js "                background-color: #121212;" ++ nl ++
  js "            }" ++ nl ++
  js "            .ok {" ++ nl ++
  js "                color: #060;" ++ nl ++
  js "                background-color: #121212;" ++ nl ++
  js "            }" ++ nl ++
  js "        }" ++ nl ++
  js "    ".

Definition PAGE_1 : jsstring :=
  js "<!doctype html><html><head><meta charset=" ++ dq ++ js "utf-8" ++ dq ++ js "><title>Set Survival Mode</title>" ++ nl ++
  js "<style>" ++ nl ++
  js "body {" ++ nl ++
  js "    font-family: system-ui;" ++ nl ++
  js "    margin: 2rem;" ++ nl ++
  js "    max-width: 420px;" ++ nl ++
  js "}" ++ nl ++
  js "form {" ++ nl ++
  js "    display: flex;" ++ nl ++
  js "    flex-direction: column;" ++ nl ++
  js "    gap: .75rem;" ++ nl ++
  js "}" ++ nl ++
  js "input, button {" ++ nl ++
  js "    padding: .5rem;" ++ nl ++
  js "    font-size: 1rem;" ++ nl ++
  js "}" ++ nl.

Definition PAGE_2 : jsstring :=
  nl ++
  js "</style>" ++ nl ++
  js "</head><body>" ++ nl ++
  js "<h1>Set Gamemode: Survival</h1>" ++ nl.

Definition PAGE_3 : jsstring :=
  nl ++
  js "<form method=" ++ dq ++ js "POST" ++ dq ++ js " action=" ++ dq ++ js "/set" ++ dq ++ js ">" ++ nl ++
  js "<label>Username <input name=" ++ dq ++ js "username" ++ dq ++ js " value=" ++ dq.

Definition PAGE_4 : jsstring :=
  dq ++ js " required pattern=" ++ dq ++ js "[A-Za-z0-9_]{3,16}" ++ dq ++ js " /></label>" ++ nl ++
  js "<label>Password <input name=" ++ dq ++ js "password" ++ dq ++ js " type=" ++ dq ++ js "password" ++ dq ++ js " required /></label>" ++ nl ++
  js "<button type=" ++ dq ++ js "submit" ++ dq ++ js ">Set to Survival</button>" ++ nl ++
  js "</form>" ++ nl ++
  js "</body></html>".

(** The [<div>] that shows the message, when there is one. *)
Definition message_block (message : jsstring) : jsstring :=
  match message with
  | [] => []
  | _ =>
      js "<div class=" ++ dq ++
      (if starts_with (js "Success") message then js "ok" else js "msg") ++
      dq ++ js ">" ++ replace_all 60 (js "&lt;") message ++ js "</div>"
  end.

(** The user name as it is put into the [value] attribute. *)
Definition escape_username (username : jsstring) : jsstring :=
  replace_all 62 (js "&gt;") (replace_all 60 (js "&lt;") username).

(** [renderForm(message, username)]; a parameter left out is [[]]. *)
Definition renderForm (message username : jsstring) : jsstring :=
  PAGE_1 ++ prefersDarkMode ++ PAGE_2 ++ message_block message ++
  PAGE_3 ++ escape_username username ++ PAGE_4.

(** ** The answers of the server (main.js 141-198) *)

Record response := Response {
  r_status : nat;
  r_type : jsstring;
  r_body : jsstring
}.

(** The code units of the letters a-z in upper case, the others as they
    are: how a regular expression with the [i] flag and without the [u]
    flag compares a character with a letter of the pattern. *)
Definition upper (c : N) : N :=
  if ((97 <=? c) && (c <=? 122))%N then (c - 32)%N else c.

Fixpoint prefix_ci (p s : jsstring) : bool :=
  match p, s with
  | [], _ => true
  | a :: p', b :: s' => (upper a =? upper b)%N && prefix_ci p' s'
  | _ :: _, [] => false
  end.

(** [/p/i.test(s)] for a pattern [p] of letters and spaces. *)
Fixpoint contains_ci (p s : jsstring) : bool :=
  prefix_ci p s ||
  match s with
  | [] => false
  | _ :: s' => contains_ci p s'
  end.

Definition is_empty (s : jsstring) : bool :=
  match s with [] => true | _ => false end.

(** The completion callback that the handler passes to [sendGamemode]
    (lines 180-191): what it writes when it is called with [a].  An error
    is represented by its [message]. *)
Definition completion (username : jsstring) (a : cbarg) : response :=
  match a with
  | CbError message =>
      Response 500 (js "text/html")
        (renderForm (js "Failed: " ++ message) username)
  | CbOk resp =>
      if negb (is_empty resp) && contains_ci (js "No player was found") resp
      then Response 400 (js "text/html")
             (renderForm (js "Player not found; you need to be logged in.")
                username)
      else Response 200 (js "text/html")
             (renderForm (js "Success: survival mode command sent for "
                          ++ username) [])
  end.

(** What the handler writes itself, before or instead of calling
    [sendGamemode]; [None] when it leaves the answer to the completion
    callback. *)
Definition respond (AUTH_PASSWORD : jsstring) (req : request) (st : state)
    : option response :=
  if jsstring_eqb (req_method req) (js "GET") && jsstring_eqb (req_url req) (js "/")
  then Some (Response 200 (js "text/html; charset=utf-8") (renderForm [] []))
  else if jsstring_eqb (req_method req) (js "POST")
          && jsstring_eqb (req_url req) (js "/set")
  then
    let username := trim (or_empty (param_username req)) in
    let password := or_empty (param_password req) in
    if jsstring_eqb AUTH_PASSWORD [] then
      Some (Response 500 (js "text/html")
              (renderForm (js "Server not configured (AUTH_PASSWORD missing).")
                 username))
    else if negb (jsstring_eqb password AUTH_PASSWORD) then
      Some (Response 403 (js "text/html")
              (renderForm (js "Invalid password.") username))
    else if negb (valid_username username) then
      Some (Response 400 (js "text/html")
              (renderForm (js "Invalid username format.") username))
    else if negb (rconReady st) then
      Some (Response 503 (js "text/html")
              (renderForm (js "RCON not connected yet. Try again shortly.")
                 username))
    else None
  else Some (Response 404 (js "text/plain") (js "Not found")).

(** ** Reading the request body (main.js 148-157)

    The variable [body] of the ['data'] listener, and how often the listener
    has answered 413 and destroyed the request.  A chunk is the text that
    [body += chunk] appends. *)
Record upload := Upload {
  up_body : jsstring;
  up_rejected : nat
}.

Definition on_data (u : upload) (chunk : jsstring) : upload :=
  let body := up_body u ++ chunk in
  if 2048 <? length body
  then Upload [] (S (up_rejected u))
  else Upload body (up_rejected u).

Definition receive (chunks : list jsstring) : upload :=
  fold_left on_data chunks (Upload [] 0).

(** ** Observations *)

(** What the completion callback of activation [k] has been called with so
    far, in order. *)
Definition calls_of (k : nat) (st : state) : list cbarg :=
  map snd (filter (fun c => Nat.eqb (fst c) k) (callbacks st)).

(** A Pending Command: an activation of [sendGamemode] whose completion
    callback has not been called yet. *)
Definition is_pending (st : state) (k : nat) : bool :=
  match calls_of k st with [] => true | _ => false end.

Definition pending (st : state) : list nat :=
  filter (is_pending st) (seq 0 (length (handled st))).

Definition backoff_timers (st : state) : list timer :=
  filter (fun t => match t_fn t with TReconnect => true | _ => false end)
         (timers st).

Definition total_elapsed (evs : list event) : Z :=
  fold_right (fun e acc => match e with Elapse d => Z.max 0 d + acc | _ => acc end)%Z
             0%Z evs.

Definition is_inbound (e : event) : bool :=
  match e with
  | Emit _ EvResponse _ | Emit _ EvError _ => true
  | _ => false
  end.

Definition is_call (e : event) : bool :=
  match e with Call _ _ => true | _ => false end.

(** ** Predicates that the properties speak of *)

Definition NOT_CONNECTED : cbarg := CbError (js "RCON not connected").

Definition TIMEOUT : cbarg := CbError (js "RCON command timeout").

(** *** Activations and their completion callbacks *)

(** The completion callbacks are only ever called, never recalled, and no
    activation disappears. *)
Definition extends (st st' : state) : Prop :=
  length (handled st') = length (handled st) /\
  exists more, callbacks st' = callbacks st ++ more.

(** An activation is settled when its [handled] is no longer [false]: it
    returned at the guard, or it has been resolved; [cs] is what its
    completion callback has been called with. *)
Definition settled (k : nat) (cs : list cbarg) (st : state) : Prop :=
  k < length (handled st) /\ get_handled k st <> Some false /\ calls_of k st = cs.

(** An activation that still waits: it was dispatched and its [handled] is
    [false]; [cs] is what its completion callback has been called with. *)
Definition waiting (k : nat) (cs : list cbarg) (st : state) : Prop :=
  get_handled k st = Some false /\ calls_of k st = cs.

(** An activation waits, or it has been resolved exactly once, with an
    argument that [A] allows. *)
Definition resolving (A : cbarg -> Prop) (k : nat) (st : state) : Prop :=
  waiting k [] st \/ exists a, A a /\ settled k [a] st.

(** The activation [k], dispatched with its fallback timeout due at [T]:
    while it waits the timer is armed. *)
Definition tracked (A : cbarg -> Prop) (k : nat) (T : Z) (st : state) : Prop :=
  resolving A k st /\
  (get_handled k st = Some false ->
   exists id, In (Timer id T (TCmdTimeout k)) (timers st)).

(** A predicate on states that only reads [handled] and [callbacks]. *)
Definition reads_hc (P : state -> Prop) : Prop :=
  forall st st', handled st' = handled st -> callbacks st' = callbacks st ->
                 P st -> P st'.

(** Activations are numbered below [length handled]. *)
Definition inv_ids (st : state) : Prop :=
  (forall c, In c (callbacks st) -> fst c < length (handled st)) /\
  (forall t k, In t (timers st) -> t_fn t = TCmdTimeout k ->
               k < length (handled st)).

(** Callers serialize: [sendGamemode] is only called when no earlier call
    still waits for its completion callback. *)
Fixpoint serialized (evs : list event) (st : state) : Prop :=
  match evs with
  | [] => True
  | e :: evs' =>
      (is_call e = true -> pending st = []) /\ serialized evs' (step st e)
  end.

(** No ['response'] and no ['error'] event among [evs]. *)
Definition no_inbound (evs : list event) : bool :=
  forallb (fun e => negb (is_inbound e)) evs.

(** *** Rcon objects and listeners *)

(** [f] is [onResponse] or [onError] of activation [k]. *)
Definition fn_of_activation (k : nat) (f : fn) : bool :=
  match f with
  | FOnResponse j | FOnError j => Nat.eqb j k
  | _ => false
  end.

(** The event each function is registered for in the source ... *)
Definition event_of_fn (f : fn) : evname :=
  match f with
  | FAuth => EvAuth
  | FLogResponse | FOnResponse _ => EvResponse
  | FLogError | FOnError _ => EvError
  | FEnd => EvEnd
  end.

(** ... and whether with [once]. *)
Definition once_fn (f : fn) : bool :=
  match f with
  | FOnResponse _ | FOnError _ => true
  | _ => false
  end.

Definition listener_ok (l : listener) : Prop :=
  l_event l = event_of_fn (l_fn l) /\ l_once l = once_fn (l_fn l).

(** Every Rcon object carries the one ['end'] listener that [connectRcon]
    gave it. *)
Definition good_emitter (e : emitter) : Prop :=
  Forall listener_ok e /\ em_listeners EvEnd e = [Listener EvEnd false FEnd].

Definition inv_objects (st : state) : Prop :=
  rcon st < length (objects st) /\ Forall good_emitter (objects st).

(** A predicate on states that only reads [rcon] and [objects]. *)
Definition reads_obj (P : state -> Prop) : Prop :=
  forall st st', rcon st' = rcon st -> objects st' = objects st -> P st -> P st'.

(** The registrations of a fresh Rcon object, main.js 25-43. *)
Definition initial_listeners : emitter :=
  [Listener EvAuth false FAuth; Listener EvResponse false FLogResponse;
   Listener EvError false FLogError; Listener EvEnd false FEnd].

(** The two [once] registrations of activation [k] are in place on the
    Rcon object [o]. *)
Definition listens (k o : nat) (st : state) : Prop :=
  o < length (objects st) /\
  In (Listener EvResponse true (FOnResponse k)) (object o st) /\
  In (Listener EvError true (FOnError k)) (object o st).

(** The fallback timeout of activation [k] is due at [T]. *)
Definition timeout_due (k : nat) (T : Z) (st : state) : Prop :=
  forall t, In t (timers st) -> t_fn t = TCmdTimeout k -> t_due t = T.

(** While it waits, with its listeners in place and its timeout ahead. *)
Definition in_flight (k o : nat) (T : Z) (st : state) : Prop :=
  waiting k [] st /\ listens k o st /\ timeout_due k T st.

(** The value that a listener of activation [k] passes on, and the listener
    itself. *)
Definition arg_of (ev : evname) (payload : jsstring) : cbarg :=
  match ev with
  | EvError => CbError payload
  | _ => CbOk payload
  end.

Definition fn_for (ev : evname) (k : nat) : fn :=
  match ev with
  | EvError => FOnError k
  | _ => FOnResponse k
  end.

(** *** The session and its timers *)

(** Nothing of the session changes: the flag, the connection handle, the
    timers, the connection attempts, the commands sent. *)
Definition same_session (st st' : state) : Prop :=
  rconReady st' = rconReady st /\ rcon st' = rcon st /\
  timers st' = timers st /\ ntimers st' = ntimers st /\
  now st' = now st /\ sent st' = sent st /\ connects st' = connects st /\
  fired st' = fired st /\ length (objects st') = length (objects st).

Definition same_timers (st st' : state) : Prop :=
  timers st' = timers st /\ ntimers st' = ntimers st /\
  now st' = now st /\ fired st' = fired st.

(** What a call or an emitted event can do to the timers: arm new ones. *)
Definition arms (st st' : state) : Prop :=
  (exists more, timers st' = timers st ++ more /\
                forall t, In t more -> ntimers st <= t_id t) /\
  ntimers st <= ntimers st' /\
  fired st' = fired st /\ connects st' = connects st /\ now st' = now st /\
  length (objects st') = length (objects st).

(** Connection attempts are only ever added, and so are Rcon objects. *)
Definition attempts_grow (st st' : state) : Prop :=
  (exists more, connects st' = connects st ++ more) /\
  length (objects st) <= length (objects st').

Definition due_le (a b : timer) : Prop := (t_due a <= t_due b)%Z.

(** Armed timers lie in the future, at most one delay away; their ids are
    distinct; the queue is in firing order. *)
Definition inv_timers (st : state) : Prop :=
  (forall t, In t (timers st) ->
             (now st < t_due t <= now st + 5000)%Z /\ t_id t < ntimers st) /\
  NoDup (map t_id (timers st)) /\
  (forall x, In x (fired st) -> fst x < ntimers st) /\
  StronglySorted due_le (timers st).

Definition has_id (id : nat) (x : nat * Z) : bool := Nat.eqb (fst x) id.

Definition stamp (t : timer) : nat * Z := (t_id t, t_due t).

(** The reconnection timer [id], due at [due]: armed and not run yet ... *)
Definition armed (id : nat) (due : Z) (st : state) : Prop :=
  In (Timer id due TReconnect) (timers st) /\ ~ In id (map fst (fired st)).

(** ... or run, once, at its due time, with a connection attempt made
    then. *)
Definition ran (id : nat) (due : Z) (n0 : nat) (st : state) : Prop :=
  filter (has_id id) (fired st) = [(id, due)] /\
  ~ In id (map t_id (timers st)) /\
  (due <= now st)%Z /\
  exists o, In (due, o) (connects st) /\ n0 <= o.

(** *** Traces used as examples *)

Definition serial_trace : list event :=
  [Emit 0 EvAuth []; Call (js "Steve") None; Emit 0 EvResponse (js "done");
   Call (js "Alex") None; Elapse 5000; Call (js "Notch") (Some (js "EPIPE"))].

Definition overlapping_trace : list event :=
  [Emit 0 EvAuth []; Call (js "Steve") None; Call (js "Alex") None].

Definition failed_send_trace : list event :=
  [Emit 0 EvAuth []; Call (js "Steve") (Some (js "EPIPE")); Elapse 5000].

(** The connection is ready and one command has been sent. *)
Definition one_pending : state :=
  run [Emit 0 EvAuth []; Call (js "Steve") None] init.

(** *** Further predicates *)

(** The registration [l] is in place on the Rcon object [o]. *)
Definition registered (l : listener) (o : nat) (st : state) : Prop :=
  o < length (objects st) /\ In l (object o st).

(** Every Rcon object carries the ['auth'] listener of [connectRcon]. *)
Definition inv_auth (st : state) : Prop :=
  Forall (In (Listener EvAuth false FAuth)) (objects st).

(** [connect()] has been called once on each Rcon object, in the order in
    which they were constructed, and [rcon] is the latest of them. *)
Definition inv_connects (st : state) : Prop :=
  map snd (connects st) = seq 0 (length (objects st)) /\
  S (rcon st) = length (objects st).

(** Of ['response'] and ['error'], the other one. *)
Definition other_event (ev : evname) : evname :=
  match ev with
  | EvError => EvResponse
  | _ => EvError
  end.

(** Activation [k] is settled and its listener for [ev] is still
    registered on the Rcon object [o]. *)
Definition stale (k o : nat) (ev : evname) (cs : list cbarg) (st : state) : Prop :=
  settled k cs st /\ registered (Listener ev true (fn_for ev k)) o st.

(** What has been written in answer to the request of activation [k],
    submitted with user name [username]. *)
Definition answers (username : jsstring) (k : nat) (st : state) : list response :=
  map (completion username) (calls_of k st).

(** How often the code unit [c] occurs in [s]. *)
Definition count (c : N) (s : jsstring) : nat := count_occ N.eq_dec s c.

(** A well-formed request, for the password 'hunter2'. *)
Definition steve_request : request :=
  Request (js "POST") (js "/set") (Some (js "Steve")) (Some (js "hunter2")).

(** * Properties *)

(** ** Lists *)

Lemma update_length A i (x : A) l : length (update i x l) = length l.
Proof.
  revert i; induction l as [|y l IH]; intros [|i]; simpl; auto.
Qed.

Lemma nth_error_update_eq A i (x : A) l :
  i < length l -> nth_error (update i x l) i = Some x.
Proof.
  revert i; induction l as [|y l IH]; intros [|i] H; simpl in *; try lia; auto.
  apply IH; lia.
Qed.

Lemma nth_error_update_ne A i j (x : A) l :
  i <> j -> nth_error (update i x l) j = nth_error l j.
Proof.
  revert i j; induction l as [|y l IH]; intros [|i] [|j] H; simpl; auto; try lia.
Qed.

Lemma nth_update_eq A i (x d : A) l :
  i < length l -> nth i (update i x l) d = x.
Proof.
  revert i; induction l as [|y l IH]; intros [|i] H; simpl in *; try lia; auto.
  apply IH; lia.
Qed.

Lemma nth_update_ne A i j (x d : A) l :
  i <> j -> nth j (update i x l) d = nth j l d.
Proof.
  revert i j; induction l as [|y l IH]; intros [|i] [|j] H; simpl; auto; try lia.
Qed.

Lemma update_out_of_range A i (x : A) l : length l <= i -> update i x l = l.
Proof.
  revert i; induction l as [|y l IH]; intros [|i] H; simpl in *; auto; try lia.
  f_equal; apply IH; lia.
Qed.

Lemma Forall_update A (P : A -> Prop) i x l :
  Forall P l -> P x -> Forall P (update i x l).
Proof.
  intros Hl Hx; revert i; induction Hl; intros [|i]; simpl; auto.
Qed.

Lemma fold_left_invariant A B (P : B -> Prop) (f : B -> A -> B) l :
  (forall s x, In x l -> P s -> P (f s x)) ->
  forall s, P s -> P (fold_left f l s).
Proof.
  induction l as [|x l IH]; simpl; intros Hf s Hs; auto.
Qed.

Lemma remove_first_incl p e l : In l (remove_first p e) -> In l e.
Proof.
  induction e as [|x e IH]; simpl; auto.
  destruct (p x); simpl; intuition.
Qed.

Lemma remove_first_keeps p e l :
  In l e -> p l = false -> In l (remove_first p e).
Proof.
  induction e as [|x e IH]; simpl; auto.
  intros [->|H] Hp.
  - rewrite Hp; simpl; auto.
  - destruct (p x); simpl; auto.
Qed.

Lemma filter_remove_first q p e :
  (forall l, p l = true -> q l = false) ->
  filter q (remove_first p e) = filter q e.
Proof.
  intros H; induction e as [|x e IH]; simpl; auto.
  destruct (p x) eqn:Hp.
  - rewrite (H _ Hp); reflexivity.
  - simpl; rewrite IH; reflexivity.
Qed.

Lemma em_removeListener_incl ev f e l :
  In l (em_removeListener ev f e) -> In l e.
Proof.
  unfold em_removeListener; intros H.
  apply in_rev in H. apply remove_first_incl in H. now apply in_rev in H.
Qed.

Lemma em_removeListener_keeps ev f e l :
  In l e -> matches ev f l = false -> In l (em_removeListener ev f e).
Proof.
  unfold em_removeListener; intros H Hm.
  apply in_rev. rewrite rev_involutive.
  apply remove_first_keeps; auto. now apply in_rev in H.
Qed.

Lemma em_listeners_removeListener ev' ev f e :
  ev <> ev' ->
  em_listeners ev' (em_removeListener ev f e) = em_listeners ev' e.
Proof.
  intros Hne; unfold em_listeners, em_removeListener.
  rewrite filter_rev, filter_remove_first, <- filter_rev, rev_involutive; auto.
  intros l Hm. unfold matches in Hm. apply andb_true_iff in Hm as [Hm _].
  destruct (l_event l), ev, ev'; simpl in *; congruence.
Qed.

(** ** What every step leaves alone *)

Lemma extends_refl st : extends st st.
Proof. split; auto. exists []. now rewrite app_nil_r. Qed.

Lemma extends_trans st1 st2 st3 :
  extends st1 st2 -> extends st2 st3 -> extends st1 st3.
Proof.
  intros [H1 [m1 E1]] [H2 [m2 E2]]; split; [congruence|].
  exists (m1 ++ m2). now rewrite E2, E1, app_assoc.
Qed.

Lemma fold_left_extends A (f : state -> A -> state) l :
  (forall s x, extends s (f s x)) ->
  forall st, extends st (fold_left f l st).
Proof.
  intros Hf; induction l as [|x l IH]; simpl; intros st.
  - apply extends_refl.
  - eapply extends_trans; [apply Hf | apply IH].
Qed.

Lemma extends_same st st' :
  handled st' = handled st -> callbacks st' = callbacks st -> extends st st'.
Proof.
  intros Hh Hc. split; [now rewrite Hh|]. exists []. now rewrite app_nil_r.
Qed.

Lemma resolve_once_extends k a st : extends st (resolve_once k a st).
Proof.
  unfold resolve_once.
  destruct (get_handled k st) as [[|]|]; try apply extends_refl.
  split; [apply update_length | eexists; reflexivity].
Qed.

Lemma run_fn_extends f p st : extends st (run_fn f p st).
Proof.
  destruct f as [| | | |k|k];
    try apply resolve_once_extends; apply extends_same; reflexivity.
Qed.

Lemma invoke_extends o p st l : extends st (invoke o p st l).
Proof.
  unfold invoke. eapply extends_trans; [|apply run_fn_extends].
  destruct (l_once l); [apply extends_same; reflexivity | apply extends_refl].
Qed.

Lemma emit_extends o ev p st : extends st (emit o ev p st).
Proof. apply fold_left_extends. intros; apply invoke_extends. Qed.

Lemma run_timer_extends f st : extends st (run_timer f st).
Proof.
  destruct f as [|k]; [apply extends_same; reflexivity|].
  unfold run_timer.
  destruct (get_handled k st) as [[|]|]; try apply extends_refl.
  split; [apply update_length | eexists; reflexivity].
Qed.

Lemma fire_extends st t : extends st (fire st t).
Proof.
  unfold fire. eapply extends_trans; [|apply run_timer_extends].
  apply extends_same; reflexivity.
Qed.

Lemma elapse_extends d st : extends st (elapse d st).
Proof.
  unfold elapse.
  eapply extends_trans; [|apply extends_same; reflexivity].
  eapply extends_trans; [|apply fold_left_extends; intros; apply fire_extends].
  apply extends_same; reflexivity.
Qed.

Lemma sendGamemode_grows u t st :
  length (handled (sendGamemode u t st)) = S (length (handled st)) /\
  exists more, callbacks (sendGamemode u t st) = callbacks st ++ more.
Proof.
  unfold sendGamemode. destruct (rconReady st); cbn [negb].
  - destruct t; split.
    + change (length (handled st ++ [Some false]) = S (length (handled st))).
      rewrite length_app; simpl; lia.
    + eexists; reflexivity.
    + change (length (handled st ++ [Some false]) = S (length (handled st))).
      rewrite length_app; simpl; lia.
    + exists []; now rewrite app_nil_r.
  - split.
    + change (length (handled st ++ [None]) = S (length (handled st))).
      rewrite length_app; simpl; lia.
    + eexists; reflexivity.
Qed.

(** ** The [handled] guard

    Nothing calls the completion callback of a settled activation again. *)

Lemma get_handled_lt k st b : get_handled k st = Some b -> k < length (handled st).
Proof.
  unfold get_handled. destruct (nth_error (handled st) k) eqn:E; try discriminate.
  intros _. apply nth_error_Some. congruence.
Qed.

Lemma calls_of_callback_ne j k a st :
  j <> k -> calls_of k (callback j a st) = calls_of k st.
Proof.
  intros H. unfold calls_of, callback; simpl.
  rewrite filter_app, map_app; simpl.
  destruct (Nat.eqb_spec j k); [contradiction|]. simpl. apply app_nil_r.
Qed.

Lemma calls_of_callback_eq k a st :
  calls_of k (callback k a st) = calls_of k st ++ [a].
Proof.
  unfold calls_of, callback; simpl.
  rewrite filter_app, map_app; simpl. now rewrite Nat.eqb_refl.
Qed.

Lemma get_handled_put_ne j k b st :
  j <> k -> get_handled k (put_handled j b st) = get_handled k st.
Proof.
  intros H. unfold get_handled, put_handled; simpl.
  now rewrite nth_error_update_ne.
Qed.

Lemma get_handled_put_eq k b st :
  k < length (handled st) -> get_handled k (put_handled k b st) = Some b.
Proof.
  intros H. unfold get_handled, put_handled; simpl.
  now rewrite nth_error_update_eq.
Qed.

Lemma settled_reads_hc k cs : reads_hc (settled k cs).
Proof.
  intros st st' Hh Hc. unfold settled, get_handled, calls_of.
  now rewrite Hh, Hc.
Qed.

Lemma waiting_reads_hc k cs : reads_hc (waiting k cs).
Proof.
  intros st st' Hh Hc. unfold waiting, get_handled, calls_of.
  now rewrite Hh, Hc.
Qed.

Lemma settled_resolve k cs j a st :
  settled k cs st -> settled k cs (resolve_once j a st).
Proof.
  intros (Hlt & Hh & Hc). unfold resolve_once.
  destruct (get_handled j st) as [[|]|] eqn:E; try (repeat split; assumption).
  assert (j <> k) by (intros ->; contradiction).
  repeat split.
  - unfold callback, put_handled; simpl. now rewrite update_length.
  - change (get_handled k (put_handled j true st) <> Some false).
    now rewrite get_handled_put_ne.
  - rewrite calls_of_callback_ne; auto.
Qed.

Lemma waiting_resolve k cs j a st :
  j <> k -> waiting k cs st -> waiting k cs (resolve_once j a st).
Proof.
  intros Hne (Hh & Hc). unfold resolve_once.
  destruct (get_handled j st) as [[|]|] eqn:E; try (split; assumption).
  split.
  - change (get_handled k (put_handled j true st) = Some false).
    now rewrite get_handled_put_ne.
  - rewrite calls_of_callback_ne; auto.
Qed.

(** The first resolution of a waiting activation. *)
Lemma waiting_resolve_eq k cs a st :
  waiting k cs st -> settled k (cs ++ [a]) (resolve_once k a st).
Proof.
  intros (Hh & Hc). unfold resolve_once. rewrite Hh.
  pose proof (get_handled_lt _ _ Hh) as Hlt.
  repeat split.
  - unfold callback, put_handled; simpl. now rewrite update_length.
  - change (get_handled k (put_handled k true st) <> Some false).
    rewrite get_handled_put_eq; auto. discriminate.
  - rewrite calls_of_callback_eq.
    change (calls_of k (put_handled k true st)) with (calls_of k st).
    now rewrite Hc.
Qed.

Lemma settled_run_fn k cs f p st :
  settled k cs st -> settled k cs (run_fn f p st).
Proof.
  intros H. destruct f; simpl; try apply settled_resolve; auto;
    revert H; apply settled_reads_hc; reflexivity.
Qed.

Lemma waiting_run_fn k cs f p st :
  fn_of_activation k f = false ->
  waiting k cs st -> waiting k cs (run_fn f p st).
Proof.
  intros Hf H. destruct f as [| | | |j|j]; simpl in *;
    try (apply waiting_resolve; auto; apply Nat.eqb_neq; assumption);
    revert H; apply waiting_reads_hc; reflexivity.
Qed.

Lemma removeListener_hc (P : state -> Prop) o ev f st :
  reads_hc P -> P st -> P (removeListener o ev f st).
Proof. intros HP. apply HP; reflexivity. Qed.

Lemma settled_invoke k cs o p st l :
  settled k cs st -> settled k cs (invoke o p st l).
Proof.
  intros H. unfold invoke. apply settled_run_fn.
  destruct (l_once l); [|assumption].
  apply removeListener_hc; auto using settled_reads_hc.
Qed.

Lemma waiting_invoke k cs o p st l :
  fn_of_activation k (l_fn l) = false ->
  waiting k cs st -> waiting k cs (invoke o p st l).
Proof.
  intros Hf H. unfold invoke. apply waiting_run_fn; auto.
  destruct (l_once l); [|assumption].
  apply removeListener_hc; auto using waiting_reads_hc.
Qed.

Lemma settled_emit k cs o ev p st :
  settled k cs st -> settled k cs (emit o ev p st).
Proof.
  apply fold_left_invariant. intros; now apply settled_invoke.
Qed.

(** The fallback timeout of lines 131-138 resolves like [resolve_once],
    with two [removeListener] calls in between. *)
Lemma run_timer_timeout k st :
  handled (run_timer (TCmdTimeout k) st)
  = handled (resolve_once k (CbError (js "RCON command timeout")) st) /\
  callbacks (run_timer (TCmdTimeout k) st)
  = callbacks (resolve_once k (CbError (js "RCON command timeout")) st).
Proof.
  unfold run_timer, resolve_once.
  destruct (get_handled k st) as [[|]|]; split; reflexivity.
Qed.

Lemma run_timer_hc (P : state -> Prop) f st :
  reads_hc P ->
  (forall k, f = TCmdTimeout k ->
             P (resolve_once k (CbError (js "RCON command timeout")) st)) ->
  P st -> P (run_timer f st).
Proof.
  intros HP Hk H. destruct f as [|k].
  - revert H; apply HP; reflexivity.
  - destruct (run_timer_timeout k st) as [Hh Hc].
    eapply HP; [exact Hh | exact Hc | auto].
Qed.

Lemma settled_fire k cs st t :
  settled k cs st -> settled k cs (fire st t).
Proof.
  intros H. unfold fire.
  assert (H' : settled k cs (set_fired (fired st ++ [(t_id t, t_due t)])
                               (set_now (t_due t) st)))
    by (revert H; apply settled_reads_hc; reflexivity).
  apply run_timer_hc; [apply settled_reads_hc | | exact H'].
  intros j _. now apply settled_resolve.
Qed.

Lemma waiting_fire k cs st t :
  t_fn t <> TCmdTimeout k ->
  waiting k cs st -> waiting k cs (fire st t).
Proof.
  intros Hne H. unfold fire.
  assert (H' : waiting k cs (set_fired (fired st ++ [(t_id t, t_due t)])
                               (set_now (t_due t) st)))
    by (revert H; apply waiting_reads_hc; reflexivity).
  apply run_timer_hc; [apply waiting_reads_hc | | exact H'].
  intros j Hj. apply waiting_resolve; [congruence | exact H'].
Qed.

Lemma settled_elapse k cs d st :
  settled k cs st -> settled k cs (elapse d st).
Proof.
  intros H. unfold elapse.
  eapply settled_reads_hc; [reflexivity | reflexivity |].
  apply fold_left_invariant.
  - intros; now apply settled_fire.
  - revert H; apply settled_reads_hc; reflexivity.
Qed.

Lemma nth_error_app_old A (l : list A) x k :
  k < length l -> nth_error (l ++ [x]) k = nth_error l k.
Proof. intros H. now rewrite nth_error_app1. Qed.

(** A later activation of [sendGamemode] has its own [handled] and its own
    completion callback. *)
Lemma sendGamemode_other (P : state -> Prop) u t st :
  (forall st', length (handled st) <= length (handled st') ->
     (forall k, k < length (handled st) ->
                nth_error (handled st') k = nth_error (handled st) k) ->
     (forall k, k < length (handled st) -> calls_of k st' = calls_of k st) ->
     P st') ->
  P (sendGamemode u t st).
Proof.
  intros HP. apply HP.
  - destruct (sendGamemode_grows u t st) as [H _]. lia.
  - intros k Hk. unfold sendGamemode.
    destruct (rconReady st); simpl; [destruct t; simpl|];
      now apply nth_error_app_old.
  - intros k Hk. unfold sendGamemode.
    destruct (rconReady st); simpl; [destruct t; simpl|]; unfold calls_of; simpl;
      rewrite ?filter_app, ?map_app; simpl;
      try (destruct (Nat.eqb_spec (length (handled st)) k); [lia|]; simpl);
      rewrite ?app_nil_r; reflexivity.
Qed.

Lemma settled_sendGamemode k cs u t st :
  settled k cs st -> settled k cs (sendGamemode u t st).
Proof.
  intros (Hlt & Hh & Hc). apply sendGamemode_other.
  intros st' Hlen Hnth Hcalls. repeat split.
  - lia.
  - unfold get_handled in *. now rewrite Hnth.
  - now rewrite Hcalls.
Qed.

Lemma waiting_sendGamemode k cs u t st :
  waiting k cs st -> waiting k cs (sendGamemode u t st).
Proof.
  intros (Hh & Hc). pose proof (get_handled_lt _ _ Hh) as Hlt.
  apply sendGamemode_other.
  intros st' Hlen Hnth Hcalls. split.
  - unfold get_handled in *. now rewrite Hnth.
  - now rewrite Hcalls.
Qed.

Lemma settled_step k cs st e :
  settled k cs st -> settled k cs (step st e).
Proof.
  destruct e; simpl; auto using settled_sendGamemode, settled_emit, settled_elapse.
Qed.

Lemma settled_run k cs evs st :
  settled k cs st -> settled k cs (run evs st).
Proof.
  apply fold_left_invariant. intros; now apply settled_step.
Qed.

(** ** Invariant: the Rcon objects and their listeners *)

Lemma good_em_add ev f e :
  good_emitter e -> ev = event_of_fn f -> ev <> EvEnd ->
  good_emitter (em_add ev (once_fn f) f e).
Proof.
  intros [Hok Hend] -> Hne. unfold em_add. split.
  - apply Forall_app; split; auto. constructor; [|constructor]. now split.
  - unfold em_listeners in *. rewrite filter_app, Hend; simpl.
    destruct (event_of_fn f); simpl; auto; contradiction.
Qed.

Lemma good_em_removeListener ev f e :
  good_emitter e -> ev <> EvEnd -> good_emitter (em_removeListener ev f e).
Proof.
  intros [Hok Hend] Hne. split.
  - rewrite Forall_forall in *. intros l Hl. apply Hok.
    eapply em_removeListener_incl; eauto.
  - rewrite em_listeners_removeListener; auto.
Qed.

Lemma good_nth o os : Forall good_emitter os -> o < length os -> good_emitter (nth o os []).
Proof.
  intros H Ho. rewrite Forall_forall in H. apply H. now apply nth_In.
Qed.

Lemma inv_objects_with_object o f st :
  (forall e, good_emitter e -> good_emitter (f e)) ->
  inv_objects st -> inv_objects (with_object o f st).
Proof.
  intros Hf [Hr Hall]. unfold with_object, inv_objects, object; simpl.
  rewrite update_length. split; auto.
  destruct (Nat.lt_ge_cases o (length (objects st))) as [Ho|Ho].
  - apply Forall_update; auto. apply Hf. now apply good_nth.
  - now rewrite update_out_of_range.
Qed.

Lemma inv_objects_removeListener o ev f st :
  ev <> EvEnd -> inv_objects st -> inv_objects (removeListener o ev f st).
Proof.
  intros Hne. apply inv_objects_with_object.
  intros e He. now apply good_em_removeListener.
Qed.

Lemma inv_objects_once o f st :
  once_fn f = true -> inv_objects st ->
  inv_objects (once o (event_of_fn f) f st).
Proof.
  intros Hf. apply inv_objects_with_object.
  intros e He. rewrite <- Hf. apply good_em_add; auto.
  destruct f; simpl in *; congruence.
Qed.

Lemma inv_objects_reads_obj : reads_obj inv_objects.
Proof. intros st st' Hr Ho. unfold inv_objects. now rewrite Hr, Ho. Qed.

Lemma run_fn_obj f p st :
  rcon (run_fn f p st) = rcon st /\ objects (run_fn f p st) = objects st.
Proof.
  destruct f as [| | | |k|k]; simpl; auto; unfold resolve_once;
    destruct (get_handled k st) as [[|]|]; auto.
Qed.

Lemma inv_objects_invoke o p st l :
  listener_ok l -> inv_objects st -> inv_objects (invoke o p st l).
Proof.
  intros [Hev Honce] H. unfold invoke.
  destruct (run_fn_obj (l_fn l) p
              (if l_once l then removeListener o (l_event l) (l_fn l) st else st))
    as [Hr Ho].
  eapply inv_objects_reads_obj; [exact Hr | exact Ho |].
  destruct (l_once l); auto.
  apply inv_objects_removeListener; auto.
  rewrite Hev. destruct (l_fn l); simpl in *; congruence.
Qed.

Lemma object_listener_ok o st l :
  inv_objects st -> In l (object o st) -> listener_ok l.
Proof.
  intros [_ Hall] Hl. unfold object in Hl.
  destruct (Nat.lt_ge_cases o (length (objects st))) as [Ho|Ho].
  - destruct (good_nth Hall Ho) as [Hok _]. rewrite Forall_forall in Hok. auto.
  - rewrite nth_overflow in Hl; auto. contradiction.
Qed.

Lemma em_listeners_In ev e l : In l (em_listeners ev e) -> In l e /\ l_event l = ev.
Proof.
  unfold em_listeners. rewrite filter_In. intros [H1 H2]; split; auto.
  destruct (l_event l), ev; simpl in *; congruence.
Qed.

Lemma inv_objects_emit o ev p st :
  inv_objects st -> inv_objects (emit o ev p st).
Proof.
  intros H. unfold emit. apply fold_left_invariant; [|exact H].
  intros s l Hl Hs. apply inv_objects_invoke; auto.
  apply em_listeners_In in Hl as [Hl _].
  exact (object_listener_ok _ _ H Hl).
Qed.

Lemma update_last A (l : list A) x y : update (length l) y (l ++ [x]) = l ++ [y].
Proof. induction l as [|z l IH]; simpl; congruence. Qed.

Lemma objects_on o ev f st :
  objects (on o ev f st)
  = update o (em_add ev false f (nth o (objects st) [])) (objects st).
Proof. reflexivity. Qed.

Lemma objects_connectRcon st :
  objects (connectRcon st) = objects st ++ [initial_listeners].
Proof.
  unfold connectRcon; cbv zeta.
  change (objects (set_connects ?c ?s)) with (objects s).
  rewrite !objects_on.
  change (objects (set_rcon ?c (set_objects ?os ?s))) with os.
  repeat (rewrite nth_middle || rewrite update_last).
  reflexivity.
Qed.

Lemma rcon_connectRcon st : rcon (connectRcon st) = length (objects st).
Proof. reflexivity. Qed.

Lemma good_initial_listeners : good_emitter initial_listeners.
Proof. split; [|reflexivity]. repeat constructor. Qed.

Lemma inv_objects_connectRcon st :
  Forall good_emitter (objects st) -> inv_objects (connectRcon st).
Proof.
  intros Hall. unfold inv_objects.
  rewrite rcon_connectRcon, objects_connectRcon, length_app. split.
  - simpl; lia.
  - apply Forall_app; split; auto.
    constructor; [apply good_initial_listeners | constructor].
Qed.

Lemma inv_objects_setTimeout f d st :
  inv_objects st -> inv_objects (setTimeout f d st).
Proof. apply inv_objects_reads_obj; reflexivity. Qed.

Lemma inv_objects_callback k a st :
  inv_objects st -> inv_objects (callback k a st).
Proof. apply inv_objects_reads_obj; reflexivity. Qed.

Lemma inv_objects_set_sent x st :
  inv_objects st -> inv_objects (set_sent x st).
Proof. apply inv_objects_reads_obj; reflexivity. Qed.

Lemma inv_objects_set_handled x st :
  inv_objects st -> inv_objects (set_handled x st).
Proof. apply inv_objects_reads_obj; reflexivity. Qed.

Lemma inv_objects_put_handled k b st :
  inv_objects st -> inv_objects (put_handled k b st).
Proof. apply inv_objects_reads_obj; reflexivity. Qed.

Lemma inv_objects_sendGamemode u t st :
  inv_objects st -> inv_objects (sendGamemode u t st).
Proof.
  intros H. unfold sendGamemode; cbv zeta.
  destruct (rconReady st); cbn [negb].
  - apply inv_objects_setTimeout.
    assert (H2 : forall o1 o2 k,
               inv_objects (once o2 EvError (FOnError k)
                              (once o1 EvResponse (FOnResponse k)
                                 (set_handled (handled st ++ [Some false]) st)))).
    { intros o1 o2 k.
      apply (inv_objects_once o2 (FOnError k)); [reflexivity|].
      apply (inv_objects_once o1 (FOnResponse k)); [reflexivity|].
      now apply inv_objects_set_handled. }
    destruct t.
    + apply inv_objects_callback.
      apply inv_objects_removeListener; [discriminate|].
      apply inv_objects_removeListener; [discriminate|].
      apply H2.
    + apply inv_objects_set_sent, H2.
  - now apply inv_objects_callback, inv_objects_set_handled.
Qed.

Lemma inv_objects_run_timer f st :
  inv_objects st -> inv_objects (run_timer f st).
Proof.
  intros H. destruct f as [|k]; simpl.
  - apply inv_objects_connectRcon, H.
  - destruct (get_handled k st) as [[|]|]; auto.
    apply inv_objects_callback.
    apply inv_objects_removeListener; [discriminate|].
    apply inv_objects_removeListener; [discriminate|].
    now apply inv_objects_put_handled.
Qed.

Lemma inv_objects_fire st t : inv_objects st -> inv_objects (fire st t).
Proof.
  intros H. unfold fire. apply inv_objects_run_timer.
  revert H; apply inv_objects_reads_obj; reflexivity.
Qed.

Lemma inv_objects_elapse d st : inv_objects st -> inv_objects (elapse d st).
Proof.
  intros H. unfold elapse.
  eapply inv_objects_reads_obj; [reflexivity | reflexivity |].
  apply fold_left_invariant.
  - intros; now apply inv_objects_fire.
  - revert H; apply inv_objects_reads_obj; reflexivity.
Qed.

Lemma inv_objects_step st e : inv_objects st -> inv_objects (step st e).
Proof.
  destruct e; simpl;
    auto using inv_objects_sendGamemode, inv_objects_emit, inv_objects_elapse.
Qed.

Lemma inv_objects_init : inv_objects init.
Proof. apply inv_objects_connectRcon. constructor. Qed.

Lemma run_snoc evs e st : run (evs ++ [e]) st = step (run evs st) e.
Proof. unfold run. now rewrite fold_left_app. Qed.

(** Induction over the reachable states. *)
Lemma reachable_ind' (P : state -> Prop) :
  P init ->
  (forall st e, reachable st -> P st -> P (step st e)) ->
  forall st, reachable st -> P st.
Proof.
  intros Hinit Hstep st [evs ->].
  induction evs as [|e evs IH] using rev_ind; [exact Hinit|].
  rewrite run_snoc. apply Hstep; [now exists evs | exact IH].
Qed.

Lemma reachable_step st e : reachable st -> reachable (step st e).
Proof. intros [evs ->]. exists (evs ++ [e]). now rewrite run_snoc. Qed.

Lemma reachable_run evs st : reachable st -> reachable (run evs st).
Proof.
  revert st; induction evs as [|e evs IH]; simpl; intros st H; auto.
  apply IH, reachable_step, H.
Qed.

Lemma reachable_inv_objects st : reachable st -> inv_objects st.
Proof.
  apply reachable_ind'; [apply inv_objects_init|].
  intros; now apply inv_objects_step.
Qed.

(** ** Invariant: the timer queue *)

Local Open Scope Z_scope.

Lemma inv_timers_same st st' :
  same_timers st st' -> inv_timers st -> inv_timers st'.
Proof.
  intros (H1 & H2 & H3 & H4). unfold inv_timers. now rewrite H1, H2, H3, H4.
Qed.

Lemma StronglySorted_filter A (R : A -> A -> Prop) p l :
  StronglySorted R l -> StronglySorted R (filter p l).
Proof.
  induction 1 as [|x l Hs IH Hall]; simpl; [constructor|].
  destruct (p x); auto. constructor; auto.
  rewrite Forall_forall in *. intros y Hy. apply Hall.
  now apply incl_filter in Hy.
Qed.

Lemma StronglySorted_snoc A (R : A -> A -> Prop) l y :
  StronglySorted R l -> (forall x, In x l -> R x y) ->
  StronglySorted R (l ++ [y]).
Proof.
  induction 1 as [|x l Hs IH Hall]; simpl; intros Hy.
  - repeat constructor.
  - constructor; auto.
    apply Forall_app; split; auto.
  Unshelve. all: auto.
Qed.

Lemma NoDup_map_filter A B (f : A -> B) p l :
  NoDup (map f l) -> NoDup (map f (filter p l)).
Proof.
  induction l as [|x l IH]; simpl; auto.
  intros H. inversion H as [|? ? Hnin Hnd]; subst.
  destruct (p x); simpl; auto.
  constructor; auto.
  intros Hin. apply Hnin. apply in_map_iff in Hin as (y & Hy & Hin).
  apply in_map_iff. exists y; split; auto. now apply incl_filter in Hin.
Qed.

Lemma inv_timers_setTimeout f st :
  inv_timers st -> inv_timers (setTimeout f 5000 st).
Proof.
  intros (Hd & Hn & Hf & Hs). unfold inv_timers, setTimeout.
  cbn [timers ntimers now fired set_timers set_ntimers].
  repeat split.
  - apply in_app_or in H as [H| [<-|[]]]; simpl; [apply Hd in H|]; lia.
  - apply in_app_or in H as [H| [<-|[]]]; simpl; [apply Hd in H|]; lia.
  - apply in_app_or in H as [H| [<-|[]]]; simpl; [apply Hd in H|]; lia.
  - rewrite map_app; simpl. apply NoDup_app; repeat split; auto.
    + repeat constructor; auto.
    + intros x Hx [<-|[]]. apply in_map_iff in Hx as (t & Ht & Hin).
      apply Hd in Hin. lia.
  - intros x Hx. apply Hf in Hx. lia.
  - apply StronglySorted_snoc; auto.
    intros t Ht. apply Hd in Ht. unfold due_le; simpl. lia.
Qed.

Lemma same_timers_resolve_once k a st : same_timers st (resolve_once k a st).
Proof.
  unfold resolve_once. destruct (get_handled k st) as [[|]|]; repeat split.
Qed.

Lemma inv_timers_run_fn f p st : inv_timers st -> inv_timers (run_fn f p st).
Proof.
  intros H. destruct f as [| | | |k|k]; simpl.
  - revert H; apply inv_timers_same; repeat split.
  - revert H; apply inv_timers_same; repeat split.
  - revert H; apply inv_timers_same; repeat split.
  - apply inv_timers_setTimeout.
    revert H; apply inv_timers_same; repeat split.
  - revert H; apply inv_timers_same, same_timers_resolve_once.
  - revert H; apply inv_timers_same, same_timers_resolve_once.
Qed.

Lemma inv_timers_invoke o p st l : inv_timers st -> inv_timers (invoke o p st l).
Proof.
  intros H. unfold invoke. apply inv_timers_run_fn.
  destruct (l_once l); [|assumption].
  revert H; apply inv_timers_same; repeat split.
Qed.

Lemma inv_timers_emit o ev p st : inv_timers st -> inv_timers (emit o ev p st).
Proof.
  apply fold_left_invariant. intros; now apply inv_timers_invoke.
Qed.

Lemma inv_timers_sendGamemode u t st :
  inv_timers st -> inv_timers (sendGamemode u t st).
Proof.
  intros H. unfold sendGamemode; cbv zeta.
  destruct (rconReady st); cbn [negb].
  - apply inv_timers_setTimeout.
    destruct t; revert H; apply inv_timers_same; repeat split.
  - revert H; apply inv_timers_same; repeat split.
Qed.

Lemma same_timers_run_timer f st : same_timers st (run_timer f st).
Proof.
  destruct f as [|k]; simpl; [repeat split|].
  destruct (get_handled k st) as [[|]|]; repeat split.
Qed.

(** Firing a timer arms none and only adds itself to the trace. *)
Lemma fire_timers st t :
  timers (fire st t) = timers st /\ ntimers (fire st t) = ntimers st /\
  now (fire st t) = t_due t /\ fired (fire st t) = fired st ++ [(t_id t, t_due t)].
Proof.
  unfold fire.
  destruct (same_timers_run_timer (t_fn t)
              (set_fired (fired st ++ [(t_id t, t_due t)]) (set_now (t_due t) st)))
    as (H1 & H2 & H3 & H4).
  rewrite H1, H2, H3, H4. repeat split.
Qed.

Lemma fold_fire_timers l st :
  timers (fold_left fire l st) = timers st /\
  ntimers (fold_left fire l st) = ntimers st /\
  fired (fold_left fire l st)
  = fired st ++ map (fun t => (t_id t, t_due t)) l.
Proof.
  revert st; induction l as [|t l IH]; intros st; simpl.
  - now rewrite app_nil_r.
  - destruct (IH (fire st t)) as (H1 & H2 & H3).
    destruct (fire_timers st t) as (F1 & F2 & _ & F4).
    rewrite H1, H2, H3, F1, F2, F4, <- app_assoc. repeat split.
Qed.

(** What [elapse] does to the queue and to the clock. *)
Lemma elapse_timers d st :
  let target := now st + Z.max 0 d in
  timers (elapse d st) = filter (fun t => negb (is_due target t)) (timers st) /\
  ntimers (elapse d st) = ntimers st /\
  now (elapse d st) = target /\
  fired (elapse d st)
  = fired st ++ map (fun t => (t_id t, t_due t))
                    (filter (is_due target) (timers st)).
Proof.
  intros target. unfold elapse. fold target.
  set (st0 := set_timers _ st).
  destruct (fold_fire_timers (filter (is_due target) (timers st)) st0)
    as (H1 & H2 & H3).
  repeat split.
  - change (timers (set_now ?t ?s)) with (timers s). now rewrite H1.
  - change (ntimers (set_now ?t ?s)) with (ntimers s). now rewrite H2.
  - change (fired (set_now ?t ?s)) with (fired s). now rewrite H3.
Qed.

Lemma inv_timers_elapse d st : inv_timers st -> inv_timers (elapse d st).
Proof.
  intros (Hd & Hn & Hf & Hs).
  destruct (elapse_timers d st) as (H1 & H2 & H3 & H4).
  unfold inv_timers. rewrite H1, H2, H3, H4. repeat split.
  - apply filter_In in H as [Hin Hdue]. unfold is_due in Hdue.
    apply negb_true_iff, Z.leb_gt in Hdue. lia.
  - apply filter_In in H as [Hin Hdue]. apply Hd in Hin. lia.
  - apply filter_In in H as [Hin Hdue]. apply Hd in Hin. lia.
  - now apply NoDup_map_filter.
  - intros x Hx. apply in_app_or in Hx as [Hx|Hx]; [now apply Hf|].
    apply in_map_iff in Hx as (t & <- & Hin). apply filter_In in Hin as [Hin _].
    apply Hd in Hin. simpl; lia.
  - now apply StronglySorted_filter.
Qed.

Lemma inv_timers_step st e : inv_timers st -> inv_timers (step st e).
Proof.
  destruct e; simpl;
    auto using inv_timers_sendGamemode, inv_timers_emit, inv_timers_elapse.
Qed.

Lemma inv_timers_init : inv_timers init.
Proof.
  repeat split; simpl; try contradiction; constructor.
Qed.

Lemma reachable_inv_timers st : reachable st -> inv_timers st.
Proof.
  apply reachable_ind'; [apply inv_timers_init|].
  intros; now apply inv_timers_step.
Qed.

(** The queue is in firing order in every reachable state, which is what
    [elapse] relies on. *)
Lemma timers_sorted st : reachable st -> StronglySorted due_le (timers st).
Proof. intros H. now destruct (reachable_inv_timers H) as (_ & _ & _ & Hs). Qed.

(** ** Invariant: activations are numbered below [length handled] *)

Local Close Scope Z_scope.

Lemma inv_ids_same st st' :
  length (handled st') = length (handled st) ->
  callbacks st' = callbacks st -> timers st' = timers st ->
  inv_ids st -> inv_ids st'.
Proof. intros H1 H2 H3. unfold inv_ids. now rewrite H1, H2, H3. Qed.

Lemma inv_ids_resolve (st st' : state) k a :
  k < length (handled st) ->
  length (handled st') = length (handled st) ->
  callbacks st' = callbacks st ++ [(k, a)] -> timers st' = timers st ->
  inv_ids st -> inv_ids st'.
Proof.
  intros Hk H1 H2 H3 [Hc Ht]. unfold inv_ids. rewrite H1, H2, H3. split; auto.
  intros c Hin. apply in_app_or in Hin as [Hin|[<-|[]]]; auto.
Qed.

Lemma inv_ids_resolve_once k a st :
  inv_ids st -> inv_ids (resolve_once k a st).
Proof.
  intros H. unfold resolve_once.
  destruct (get_handled k st) as [[|]|] eqn:E; auto.
  eapply (@inv_ids_resolve st _ k a); auto.
  - eapply get_handled_lt; eauto.
  - apply update_length.
Qed.

Lemma inv_ids_reconnect_timer st :
  inv_ids st -> inv_ids (setTimeout TReconnect RECONNECT_DELAY st).
Proof.
  intros [Hc Ht]. split; auto.
  intros t k Hin Hk.
  apply in_app_or in Hin as [Hin|[<-|[]]]; [eauto | discriminate].
Qed.

Lemma inv_ids_run_fn f p st : inv_ids st -> inv_ids (run_fn f p st).
Proof.
  intros H. destruct f as [| | | |k|k]; simpl;
    try apply inv_ids_resolve_once; try apply inv_ids_reconnect_timer;
    try (revert H; apply inv_ids_same; reflexivity); auto.
Qed.

Lemma inv_ids_invoke o p st l : inv_ids st -> inv_ids (invoke o p st l).
Proof.
  intros H. unfold invoke. apply inv_ids_run_fn.
  destruct (l_once l); [|assumption].
  revert H; apply inv_ids_same; reflexivity.
Qed.

Lemma inv_ids_emit o ev p st : inv_ids st -> inv_ids (emit o ev p st).
Proof.
  apply fold_left_invariant. intros; now apply inv_ids_invoke.
Qed.

Lemma inv_ids_run_timer f st : inv_ids st -> inv_ids (run_timer f st).
Proof.
  intros H. destruct f as [|k]; simpl.
  - revert H; apply inv_ids_same; reflexivity.
  - destruct (get_handled k st) as [[|]|] eqn:E; auto.
    eapply (@inv_ids_resolve st _ k); eauto.
    + eapply get_handled_lt; eauto.
    + apply update_length.
    + reflexivity.
Qed.

Lemma inv_ids_fire st t : inv_ids st -> inv_ids (fire st t).
Proof.
  intros H. unfold fire. apply inv_ids_run_timer.
  revert H; apply inv_ids_same; reflexivity.
Qed.

Lemma inv_ids_elapse d st : inv_ids st -> inv_ids (elapse d st).
Proof.
  intros H. unfold elapse.
  eapply inv_ids_same; [reflexivity | reflexivity | reflexivity |].
  apply fold_left_invariant.
  - intros; now apply inv_ids_fire.
  - destruct H as [Hc Ht]. split; auto.
    intros t k Hin. apply filter_In in Hin as [Hin _]. eauto.
Qed.

Lemma inv_ids_sendGamemode u t st :
  inv_ids st -> inv_ids (sendGamemode u t st).
Proof.
  intros [Hc Ht].
  assert (Hlen : forall x, length (handled st ++ [x]) = S (length (handled st)))
    by (intros; rewrite length_app; simpl; lia).
  unfold sendGamemode; cbv zeta.
  destruct (rconReady st); cbn [negb]; [destruct t|]; split.
  - intros c Hin. change (length (handled _)) with (length (handled st ++ [Some false])).
    rewrite Hlen. apply in_app_or in Hin as [Hin|[<-|[]]]; [apply Hc in Hin|simpl]; lia.
  - intros x k Hin Hk. change (length (handled _)) with (length (handled st ++ [Some false])).
    rewrite Hlen. apply in_app_or in Hin as [Hin|[<-|[]]].
    + specialize (Ht _ _ Hin Hk). lia.
    + simpl in Hk. injection Hk as <-. lia.
  - intros c Hin. change (length (handled _)) with (length (handled st ++ [Some false])).
    rewrite Hlen. apply Hc in Hin. lia.
  - intros x k Hin Hk. change (length (handled _)) with (length (handled st ++ [Some false])).
    rewrite Hlen. apply in_app_or in Hin as [Hin|[<-|[]]].
    + specialize (Ht _ _ Hin Hk). lia.
    + simpl in Hk. injection Hk as <-. lia.
  - intros c Hin. change (length (handled _)) with (length (handled st ++ [None])).
    rewrite Hlen. apply in_app_or in Hin as [Hin|[<-|[]]]; [apply Hc in Hin|simpl]; lia.
  - intros x k Hin Hk. change (length (handled _)) with (length (handled st ++ [None])).
    rewrite Hlen. specialize (Ht _ _ Hin Hk). lia.
Qed.

Lemma inv_ids_step st e : inv_ids st -> inv_ids (step st e).
Proof.
  destruct e; simpl;
    auto using inv_ids_sendGamemode, inv_ids_emit, inv_ids_elapse.
Qed.

Lemma reachable_inv_ids st : reachable st -> inv_ids st.
Proof.
  apply reachable_ind'.
  - split; simpl; intros; contradiction.
  - intros; now apply inv_ids_step.
Qed.

(** The completion callback of the next activation has not been called, and
    no timer belongs to it. *)
Lemma calls_of_fresh st :
  inv_ids st -> calls_of (length (handled st)) st = [].
Proof.
  intros [Hc _]. unfold calls_of.
  induction (callbacks st) as [|c l IH]; simpl; auto.
  destruct (Nat.eqb_spec (fst c) (length (handled st))) as [E|E].
  - specialize (Hc c (or_introl eq_refl)). lia.
  - apply IH. intros; apply Hc; now right.
Qed.

(** ** [sendGamemode], path by path *)

Lemma sendGamemode_not_ready u t st :
  rconReady st = false ->
  sendGamemode u t st
  = callback (length (handled st)) NOT_CONNECTED
      (set_handled (handled st ++ [None]) st).
Proof. intros H. unfold sendGamemode. now rewrite H. Qed.

Lemma sendGamemode_handled u t st :
  rconReady st = true ->
  handled (sendGamemode u t st) = handled st ++ [Some false].
Proof. intros H. unfold sendGamemode. rewrite H. now destruct t. Qed.

Lemma sendGamemode_timers u t st :
  rconReady st = true ->
  timers (sendGamemode u t st)
  = timers st ++ [Timer (ntimers st) (now st + COMMAND_TIMEOUT)
                    (TCmdTimeout (length (handled st)))].
Proof. intros H. unfold sendGamemode. rewrite H. now destruct t. Qed.

Lemma sendGamemode_get_handled u t st :
  rconReady st = true ->
  get_handled (length (handled st)) (sendGamemode u t st) = Some false.
Proof.
  intros H. unfold get_handled. rewrite sendGamemode_handled by assumption.
  now rewrite nth_error_app2, Nat.sub_diag by lia.
Qed.

Lemma sendGamemode_sent u st :
  rconReady st = true ->
  sent (sendGamemode u None st)
  = sent st ++ [(rcon st, js "gamemode survival " ++ u)] /\
  callbacks (sendGamemode u None st) = callbacks st.
Proof. intros H. unfold sendGamemode. now rewrite H. Qed.

Lemma sendGamemode_throws u e st :
  rconReady st = true ->
  sent (sendGamemode u (Some e) st) = sent st /\
  callbacks (sendGamemode u (Some e) st)
  = callbacks st ++ [(length (handled st), CbError e)].
Proof. intros H. unfold sendGamemode. now rewrite H. Qed.

(** ** One command in flight *)

Lemma filter_length_mono A (p q : A -> bool) l :
  (forall x, In x l -> p x = true -> q x = true) ->
  length (filter p l) <= length (filter q l).
Proof.
  induction l as [|x l IH]; simpl; intros H; auto.
  assert (IH' := IH (fun y Hy => H y (or_intror Hy))).
  destruct (p x) eqn:Hp.
  - rewrite (H x (or_introl eq_refl) Hp). simpl; lia.
  - destruct (q x); simpl; lia.
Qed.

Lemma is_pending_mono st st' k :
  (exists more, callbacks st' = callbacks st ++ more) ->
  is_pending st' k = true -> is_pending st k = true.
Proof.
  intros [more E]. unfold is_pending, calls_of. rewrite E, filter_app, map_app.
  destruct (map snd (filter _ (callbacks st))); simpl; auto.
Qed.

Lemma pending_extends st st' :
  extends st st' -> length (pending st') <= length (pending st).
Proof.
  intros [Hlen Hcb]. unfold pending. rewrite Hlen.
  apply filter_length_mono. intros k _. now apply is_pending_mono.
Qed.

Lemma pending_sendGamemode u t st :
  length (pending (sendGamemode u t st)) <= S (length (pending st)).
Proof.
  destruct (sendGamemode_grows u t st) as [Hlen Hcb].
  unfold pending. rewrite Hlen, seq_S, filter_app, length_app. simpl.
  assert (length (filter (is_pending (sendGamemode u t st))
                    (seq 0 (length (handled st))))
          <= length (filter (is_pending st) (seq 0 (length (handled st))))).
  { apply filter_length_mono. intros k _. now apply is_pending_mono. }
  destruct (is_pending _ (length (handled st))); simpl; lia.
Qed.

Lemma serialized_at_most_one evs :
  forall st, length (pending st) <= 1 -> serialized evs st ->
             length (pending (run evs st)) <= 1.
Proof.
  induction evs as [|e evs IH]; simpl; intros st Hst Hser; auto.
  destruct Hser as [Hcall Hrest].
  apply IH; auto.
  destruct e as [u t|o ev p|d]; simpl in *.
  - pose proof (pending_sendGamemode u t st) as H.
    rewrite (Hcall eq_refl) in H. simpl in H. lia.
  - pose proof (pending_extends (emit_extends o ev p st)). lia.
  - pose proof (pending_extends (elapse_extends d st)). lia.
Qed.

(** C1, as the code has it: [sendGamemode] does not look for a Pending
    Command, so the bound rests on the callers; when they serialize, at most
    one Pending Command exists after every sequence of events. *)
Theorem at_most_one_pending_when_serialized (evs : list event) :
  serialized evs init -> length (pending (run evs init)) <= 1.
Proof.
  intros H. apply serialized_at_most_one; auto.
Qed.

Lemma at_most_one_pending_when_serialized_witness :
  serialized serial_trace init /\ length (pending (run serial_trace init)) <= 1.
Proof.
  assert (H : serialized serial_trace init).
  { simpl. repeat split; intros Hc; try discriminate Hc; vm_compute; reflexivity. }
  split; [exact H | exact (at_most_one_pending_when_serialized serial_trace H)].
Defined.

(** The request handler does not serialize its calls: a second request
    that arrives before the first one has been answered is dispatched as
    well. *)
Example two_requests_overlap :
  let post u := Request (js "POST") (js "/set") (Some u) (Some (js "hunter2")) in
  let st1 := fst (handle_request (js "hunter2") (post (js "Steve")) None
                    (run [Emit 0 EvAuth []] init)) in
  let st2 := fst (handle_request (js "hunter2") (post (js "Alex")) None st1) in
  st2 = run overlapping_trace init.
Proof. vm_compute. reflexivity. Qed.

(** C1 as stated fails: two calls in a row while the connection is ready
    leave two commands in flight. *)
Lemma two_pending_commands :
  pending (run overlapping_trace init) = [0; 1] /\
  get_handled 0 (run overlapping_trace init) = Some false /\
  get_handled 1 (run overlapping_trace init) = Some false /\
  ~ (forall evs, length (pending (run evs init)) <= 1).
Proof.
  do 3 (split; [vm_compute; reflexivity|]).
  intros H. specialize (H overlapping_trace). vm_compute in H. lia.
Qed.

(** ** From dispatch to resolution *)

Local Open Scope Z_scope.

Lemma settled_fold_fire k cs l st :
  settled k cs st -> settled k cs (fold_left fire l st).
Proof. apply fold_left_invariant. intros; now apply settled_fire. Qed.

(** The fallback timeout, when it finds the activation still waiting. *)
Lemma waiting_fire_own k cs st t :
  t_fn t = TCmdTimeout k ->
  waiting k cs st -> settled k (cs ++ [TIMEOUT]) (fire st t).
Proof.
  intros Hk H. unfold fire. rewrite Hk.
  set (st0 := set_fired _ _).
  assert (H0 : waiting k cs st0)
    by (revert H; apply waiting_reads_hc; reflexivity).
  destruct (run_timer_timeout k st0) as [Hh Hc].
  eapply settled_reads_hc; [exact Hh | exact Hc |].
  now apply waiting_resolve_eq.
Qed.

Lemma waiting_fold_fire k cs l st :
  waiting k cs st ->
  (exists t, In t l /\ t_fn t = TCmdTimeout k /\
             settled k (cs ++ [TIMEOUT]) (fold_left fire l st)) \/
  ((forall t, In t l -> t_fn t <> TCmdTimeout k) /\
   waiting k cs (fold_left fire l st)).
Proof.
  revert st; induction l as [|t l IH]; intros st H; simpl.
  - right; split; auto.
  - destruct (t_fn t) as [|j] eqn:Ef.
    + destruct (IH (fire st t)) as [(t' & Hin & Hf & Hs)|[Hno Hw]].
      * apply waiting_fire; [congruence | exact H].
      * left; exists t'; auto.
      * right; split; auto. intros t' [<-|Hin]; [congruence | auto].
    + destruct (Nat.eq_dec j k) as [->|Hne].
      * left; exists t. split; [now left|]. split; [exact Ef|].
        apply settled_fold_fire. now apply waiting_fire_own.
      * destruct (IH (fire st t)) as [(t' & Hin & Hf & Hs)|[Hno Hw]].
        -- apply waiting_fire; [congruence | exact H].
        -- left; exists t'; auto.
        -- right; split; auto. intros t' [<-|Hin]; [congruence | auto].
Qed.

Lemma resolving_run_fn (A : cbarg -> Prop) k f p st :
  (fn_of_activation k f = true -> forall a, A a) ->
  resolving A k st -> resolving A k (run_fn f p st).
Proof.
  intros HA [Hw|(a & Ha & Hs)].
  - destruct (fn_of_activation k f) eqn:Ef.
    + right. destruct f as [| | | |j|j]; simpl in Ef; try discriminate;
        apply Nat.eqb_eq in Ef; subst j; simpl;
        eexists; (split; [apply HA; reflexivity|]);
        apply (waiting_resolve_eq _ Hw).
    + left. now apply waiting_run_fn.
  - right. exists a; split; auto. now apply settled_run_fn.
Qed.

Lemma resolving_reads_hc A k : reads_hc (resolving A k).
Proof.
  intros st st' Hh Hc [Hw|(a & Ha & Hs)]; [left|right].
  - revert Hw; now apply waiting_reads_hc.
  - exists a; split; auto. revert Hs; now apply settled_reads_hc.
Qed.

Lemma resolving_invoke (A : cbarg -> Prop) k o p st l :
  (fn_of_activation k (l_fn l) = true -> forall a, A a) ->
  resolving A k st -> resolving A k (invoke o p st l).
Proof.
  intros HA H. unfold invoke. apply resolving_run_fn; auto.
  destruct (l_once l); [|assumption].
  revert H; apply resolving_reads_hc; reflexivity.
Qed.

Lemma resolving_fire (A : cbarg -> Prop) k st t :
  A TIMEOUT -> resolving A k st -> resolving A k (fire st t).
Proof.
  intros HA [Hw|(a & Ha & Hs)].
  - destruct (t_fn t) as [|j] eqn:Ef.
    + left. apply waiting_fire; [congruence | exact Hw].
    + destruct (Nat.eq_dec j k) as [->|Hne].
      * right. exists TIMEOUT; split; auto.
        apply (waiting_fire_own _ Ef Hw).
      * left. apply waiting_fire; [congruence | exact Hw].
  - right. exists a; split; auto. now apply settled_fire.
Qed.

Lemma resolving_sendGamemode (A : cbarg -> Prop) k u t st :
  resolving A k st -> resolving A k (sendGamemode u t st).
Proof.
  intros [Hw|(a & Ha & Hs)]; [left|right].
  - now apply waiting_sendGamemode.
  - exists a; split; auto. now apply settled_sendGamemode.
Qed.

(** A listener that belongs to activation [k] hangs on ['response'] or on
    ['error']. *)
Lemma activation_listener_inbound k o ev p l :
  listener_ok l -> l_event l = ev -> fn_of_activation k (l_fn l) = true ->
  is_inbound (Emit o ev p) = true.
Proof.
  intros [He _] <- Hf. rewrite He.
  destruct (l_fn l); simpl in *; congruence.
Qed.

Lemma resolving_emit (A : cbarg -> Prop) k o ev p st :
  (is_inbound (Emit o ev p) = true -> forall a, A a) ->
  inv_objects st ->
  resolving A k st -> resolving A k (emit o ev p st).
Proof.
  intros HA Hinv H. unfold emit. apply fold_left_invariant; [|exact H].
  intros s l Hl Hs. apply resolving_invoke; auto.
  intros Hf. apply HA.
  apply em_listeners_In in Hl as [Hl Hev].
  eapply activation_listener_inbound; eauto.
  exact (object_listener_ok _ _ Hinv Hl).
Qed.

Lemma resolving_elapse (A : cbarg -> Prop) k d st :
  A TIMEOUT -> resolving A k st -> resolving A k (elapse d st).
Proof.
  intros HA H. unfold elapse.
  eapply resolving_reads_hc; [reflexivity | reflexivity |].
  apply fold_left_invariant.
  - intros; now apply resolving_fire.
  - revert H; apply resolving_reads_hc; reflexivity.
Qed.

Lemma timers_run_fn f p st x :
  In x (timers st) -> In x (timers (run_fn f p st)).
Proof.
  intros H. destruct f as [| | | |k|k]; simpl; auto.
  - apply in_or_app; now left.
  - destruct (same_timers_resolve_once k (CbOk p) st) as [E _]. now rewrite E.
  - destruct (same_timers_resolve_once k (CbError p) st) as [E _]. now rewrite E.
Qed.

Lemma timers_emit o ev p st x :
  In x (timers st) -> In x (timers (emit o ev p st)).
Proof.
  unfold emit.
  apply (@fold_left_invariant _ _ (fun s => In x (timers s))).
  intros s l _ Hs. unfold invoke.
  apply timers_run_fn. now destruct (l_once l).
Qed.

Lemma timers_sendGamemode u t st x :
  In x (timers st) -> In x (timers (sendGamemode u t st)).
Proof.
  intros H. unfold sendGamemode.
  destruct (rconReady st); cbn [negb]; auto.
  destruct t; apply in_or_app; now left.
Qed.

Lemma now_run_fn f p st : now (run_fn f p st) = now st.
Proof.
  destruct f as [| | | |k|k]; simpl; auto;
    now destruct (same_timers_resolve_once k (CbOk p) st) as (_ & _ & E & _),
                 (same_timers_resolve_once k (CbError p) st) as (_ & _ & E' & _).
Qed.

Lemma now_emit o ev p st : now (emit o ev p st) = now st.
Proof.
  unfold emit.
  apply (@fold_left_invariant _ _ (fun s => now s = now st)); auto.
  intros s l _ Hs. unfold invoke. rewrite now_run_fn.
  now destruct (l_once l).
Qed.

Lemma now_sendGamemode u t st : now (sendGamemode u t st) = now st.
Proof.
  unfold sendGamemode. destruct (rconReady st); cbn [negb]; auto.
  now destruct t.
Qed.

Lemma now_run evs st : now (run evs st) = now st + total_elapsed evs.
Proof.
  revert st; induction evs as [|e evs IH]; intros st; [simpl; lia|].
  change (run (e :: evs) st) with (run evs (step st e)). rewrite IH.
  destruct e as [u t|o ev p|d]; unfold step, total_elapsed; cbn [fold_right].
  - now rewrite now_sendGamemode.
  - now rewrite now_emit.
  - destruct (elapse_timers d st) as (_ & _ & E & _). rewrite E. lia.
Qed.

Lemma total_elapsed_nonneg evs : 0 <= total_elapsed evs.
Proof. induction evs as [|[| |d] evs IH]; simpl; lia. Qed.

Lemma tracked_step (A : cbarg -> Prop) k T st e :
  A TIMEOUT -> (is_inbound e = true -> forall a, A a) ->
  inv_objects st ->
  tracked A k T st -> tracked A k T (step st e).
Proof.
  intros HT HA Hinv [Hres Htm]. destruct e as [u t|o ev p|d]; simpl.
  - split; [now apply resolving_sendGamemode|].
    intros Hh. destruct Hres as [[Hw _]|(a & Ha & Hs)].
    + destruct (Htm Hw) as [id Hid]. exists id. now apply timers_sendGamemode.
    + apply (settled_sendGamemode u t) in Hs. destruct Hs as (_ & Hs & _).
      contradiction.
  - split; [now apply resolving_emit|].
    intros Hh. destruct Hres as [[Hw _]|(a & Ha & Hs)].
    + destruct (Htm Hw) as [id Hid]. exists id. now apply timers_emit.
    + apply (settled_emit o ev p) in Hs. destruct Hs as (_ & Hs & _).
      contradiction.
  - split; [now apply resolving_elapse|].
    intros Hh. destruct Hres as [Hw|(a & Ha & Hs)].
    + destruct (Htm (proj1 Hw)) as [id Hid].
      destruct (elapse_timers d st) as (E & _). cbv zeta in E. rewrite E.
      exists id. apply filter_In; split; auto.
      apply negb_true_iff. destruct (is_due _ _) eqn:Hdue; auto.
      exfalso.
      (* the timer fell due, so it ran and resolved the activation *)
      unfold elapse in Hh.
      change (get_handled k (set_now ?t ?s)) with (get_handled k s) in Hh.
      set (st0 := set_timers _ st) in Hh.
      assert (Hw0 : waiting k [] st0)
        by (revert Hw; apply waiting_reads_hc; reflexivity).
      destruct (waiting_fold_fire
                  (filter (is_due (now st + Z.max 0 d)) (timers st)) Hw0)
        as [(t' & _ & _ & _ & Hs & _)|[Hno _]].
      * contradiction.
      * apply (Hno (Timer id T (TCmdTimeout k))); [|reflexivity].
        apply filter_In; split; auto.
    + apply (settled_elapse d) in Hs. destruct Hs as (_ & Hs & _).
      contradiction.
Qed.

Lemma tracked_run (A : cbarg -> Prop) k T evs :
  A TIMEOUT ->
  (forall e, In e evs -> is_inbound e = true -> forall a, A a) ->
  forall st, inv_objects st -> tracked A k T st -> tracked A k T (run evs st).
Proof.
  intros HT. induction evs as [|e evs IH]; intros HA st Hinv H; [exact H|].
  change (run (e :: evs) st) with (run evs (step st e)).
  apply IH.
  - intros e' He'. apply HA. now right.
  - now apply inv_objects_step.
  - apply tracked_step; auto. apply HA. now left.
Qed.

(** Past the deadline the activation has been resolved. *)
Lemma tracked_after_deadline (A : cbarg -> Prop) k T st :
  inv_timers st -> tracked A k T st -> T <= now st ->
  exists a, A a /\ settled k [a] st.
Proof.
  intros (Hd & _) [[Hw|Hs] Htm] HT; auto.
  destruct (Htm (proj1 Hw)) as [id Hid]. apply Hd in Hid. simpl in Hid. lia.
Qed.

(** A dispatch whose [send] returns starts tracking. *)
Lemma tracked_dispatch (A : cbarg -> Prop) u st :
  inv_ids st -> rconReady st = true ->
  tracked A (length (handled st)) (now st + 5000) (sendGamemode u None st).
Proof.
  intros Hids Hr. split.
  - left. split; [now apply sendGamemode_get_handled|].
    unfold calls_of. destruct (sendGamemode_sent u st Hr) as [_ ->].
    now apply calls_of_fresh.
  - intros _. exists (ntimers st).
    rewrite (sendGamemode_timers u None st Hr). apply in_or_app; right; now left.
Qed.

Lemma no_inbound_In evs e :
  no_inbound evs = true -> In e evs -> is_inbound e = true -> False.
Proof.
  unfold no_inbound. rewrite forallb_forall. intros H Hin He.
  apply H in Hin. rewrite He in Hin. discriminate.
Qed.

(** *** The guard at line 105 *)

Local Close Scope Z_scope.

(** C2, as the code has it: [sendGamemode] rejects when [rconReady] is not
    set, and only then.  The completion callback is called at once with
    'RCON not connected', nothing else changes (no listener, nothing sent,
    no timer, the other activations untouched), and the callback is never
    called again. *)
Theorem not_ready_rejected_without_effect
    (st : state) (u : jsstring) (t : option jsstring) :
  reachable st -> rconReady st = false ->
  let k := length (handled st) in
  let st' := sendGamemode u t st in
  callbacks st' = callbacks st ++ [(k, NOT_CONNECTED)] /\
  calls_of k st' = [NOT_CONNECTED] /\
  objects st' = objects st /\ same_session st st' /\
  console st' = console st /\
  (forall j, j < k -> get_handled j st' = get_handled j st) /\
  forall evs, calls_of k (run evs st') = [NOT_CONNECTED].
Proof.
  intros Hreach Hr k st'. unfold st'. rewrite (sendGamemode_not_ready u t st Hr).
  fold k.
  assert (Hcalls : calls_of k (callback k NOT_CONNECTED
                                 (set_handled (handled st ++ [None]) st))
                   = [NOT_CONNECTED]).
  { rewrite calls_of_callback_eq.
    change (calls_of k (set_handled ?h ?s)) with (calls_of k s).
    unfold k. rewrite calls_of_fresh; auto using reachable_inv_ids. }
  split; [reflexivity|]. split; [exact Hcalls|]. split; [reflexivity|].
  split; [repeat split|]. split; [reflexivity|]. split.
  - intros j Hj. unfold get_handled.
    change (handled (callback ?a ?b (set_handled ?h ?s))) with h.
    now rewrite nth_error_app1.
  - intros evs. apply settled_run. repeat split; auto.
    + change (handled (callback ?a ?b (set_handled ?h ?s))) with h.
      rewrite length_app; simpl; unfold k; lia.
    + unfold get_handled.
      change (handled (callback ?a ?b (set_handled ?h ?s))) with h.
      unfold k. rewrite nth_error_app2, Nat.sub_diag by lia. discriminate.
Qed.

Lemma not_ready_rejected_without_effect_witness :
  let st := run [Emit 0 EvAuth []; Emit 0 EvEnd []] init in
  calls_of 0 (run [Emit 0 EvResponse (js "late"); Elapse 5000]
                (sendGamemode (js "Steve") None st))
  = [NOT_CONNECTED].
Proof.
  intros st.
  assert (Hreach : reachable st) by (eexists; reflexivity).
  assert (Hr : rconReady st = false) by reflexivity.
  exact (proj2 (proj2 (proj2 (proj2 (proj2 (proj2
           (@not_ready_rejected_without_effect st (js "Steve") None Hreach Hr))))))
           [Emit 0 EvResponse (js "late"); Elapse 5000]).
Defined.

(** C2 as stated fails: with a command already in flight, [sendGamemode]
    does not reject; it registers listeners and sends a second command. *)
Lemma pending_command_is_not_rejected :
  pending one_pending = [0] /\
  calls_of 1 (sendGamemode (js "Alex") None one_pending) = [] /\
  length (sent (sendGamemode (js "Alex") None one_pending)) = 2 /\
  ~ (forall st u t,
       reachable st -> rconReady st = false \/ pending st <> [] ->
       calls_of (length (handled st)) (sendGamemode u t st) = [NOT_CONNECTED]).
Proof.
  do 3 (split; [vm_compute; reflexivity|]).
  intros H.
  assert (Hreach : reachable one_pending) by (eexists; reflexivity).
  specialize (H one_pending (js "Alex") None Hreach).
  assert (Hp : rconReady one_pending = false \/ pending one_pending <> [])
    by (right; vm_compute; discriminate).
  specialize (H Hp). vm_compute in H. discriminate.
Qed.

(** *** Resolution happens once, except after a failed send *)

Local Open Scope Z_scope.

(** X1: when [rcon.send] returns, the completion callback is never called
    twice, whatever happens afterwards. *)
Lemma sent_command_resolved_at_most_once st u evs :
  reachable st -> rconReady st = true ->
  (length (calls_of (length (handled st))
             (run evs (sendGamemode u None st))) <= 1)%nat.
Proof.
  intros Hreach Hr.
  pose proof (@tracked_dispatch (fun _ => True) u st
                (reachable_inv_ids Hreach) Hr) as Ht.
  apply (@tracked_run _ _ _ evs I (fun _ _ _ _ => I)) in Ht.
  - destruct Ht as [[[_ E]|(a & _ & _ & _ & E)] _]; rewrite E; simpl; lia.
  - apply inv_objects_sendGamemode, reachable_inv_objects, Hreach.
Qed.

(** X2: when [rcon.send] returns and five seconds have passed, the
    completion callback has been called exactly once, whatever else has
    happened in between. *)
Lemma sent_command_resolved_exactly_once st u evs :
  reachable st -> rconReady st = true -> 5000 <= total_elapsed evs ->
  exists a, calls_of (length (handled st))
              (run evs (sendGamemode u None st)) = [a].
Proof.
  intros Hreach Hr Hel.
  pose proof (@tracked_dispatch (fun _ => True) u st
                (reachable_inv_ids Hreach) Hr) as Ht.
  apply (@tracked_run _ _ _ evs I (fun _ _ _ _ => I)) in Ht.
  - apply tracked_after_deadline in Ht.
    + destruct Ht as (a & _ & _ & _ & E). now exists a.
    + apply reachable_inv_timers, reachable_run.
      now apply (reachable_step (Call u None)).
    + rewrite now_run, now_sendGamemode. lia.
  - apply inv_objects_sendGamemode, reachable_inv_objects, Hreach.
Qed.

(** When [rcon.send] throws, the [catch] block calls the completion callback
    and leaves [handled] at [false]; the fallback timeout then calls it a
    second time. *)
Lemma send_failure_then_timeout st u e :
  reachable st -> rconReady st = true ->
  calls_of (length (handled st)) (elapse 5000 (sendGamemode u (Some e) st))
  = [CbError e; TIMEOUT].
Proof.
  intros Hreach Hr.
  set (k := length (handled st)). set (st1 := sendGamemode u (Some e) st).
  assert (Hw : waiting k [CbError e] st1).
  { split; [now apply sendGamemode_get_handled|].
    unfold calls_of, st1. destruct (sendGamemode_throws u e st Hr) as [_ ->].
    rewrite filter_app, map_app. fold (calls_of k st). unfold k.
    rewrite calls_of_fresh by now apply reachable_inv_ids.
    simpl. now rewrite Nat.eqb_refl. }
  unfold elapse.
  change (calls_of k (set_now ?t ?s)) with (calls_of k s).
  set (st0 := set_timers _ st1).
  assert (Hw0 : waiting k [CbError e] st0)
    by (revert Hw; apply waiting_reads_hc; reflexivity).
  destruct (waiting_fold_fire
              (filter (is_due (now st1 + Z.max 0 5000)) (timers st1)) Hw0)
    as [(_ & _ & _ & _ & _ & E)|[Hno _]]; [exact E|].
  exfalso.
  apply (Hno (Timer (ntimers st) (now st + COMMAND_TIMEOUT) (TCmdTimeout k)));
    [|reflexivity].
  apply filter_In; split.
  - unfold st1. rewrite (sendGamemode_timers u (Some e) st Hr).
    apply in_or_app; right; now left.
  - unfold is_due, st1; simpl. rewrite now_sendGamemode.
    apply Z.leb_le. unfold COMMAND_TIMEOUT. lia.
Qed.

(** C3 at the failing input: the connection is ready, [rcon.send] throws,
    five seconds pass.  The completion callback has been called twice. *)
Theorem send_failure_calls_back_twice :
  calls_of 0 (run failed_send_trace init) = [CbError (js "EPIPE"); TIMEOUT].
Proof.
  change (run failed_send_trace init)
    with (elapse 5000 (sendGamemode (js "Steve") (Some (js "EPIPE"))
                         (run [Emit 0 EvAuth []] init))).
  apply (@send_failure_then_timeout (run [Emit 0 EvAuth []] init)).
  - eexists; reflexivity.
  - reflexivity.
Qed.

(** *** The fallback timeout *)

(** C4: the command is sent, no ['response'] and no ['error'] event arrives
    while five seconds pass; the completion callback has been called once,
    with 'RCON command timeout', and whatever arrives later does not reach
    it again. *)
Theorem timeout_after_silence
    (st : state) (u : jsstring) (evs late : list event) :
  reachable st -> rconReady st = true ->
  no_inbound evs = true -> 5000 <= total_elapsed evs ->
  let k := length (handled st) in
  let st1 := run evs (sendGamemode u None st) in
  calls_of k st1 = [TIMEOUT] /\ calls_of k (run late st1) = [TIMEOUT].
Proof.
  intros Hreach Hr Hq Hel k st1.
  pose proof (@tracked_dispatch (eq TIMEOUT) u st
                (reachable_inv_ids Hreach) Hr) as Ht.
  apply (@tracked_run _ _ _ evs eq_refl) in Ht.
  - apply tracked_after_deadline in Ht.
    + destruct Ht as (a & <- & Hs). split.
      * apply Hs.
      * apply (settled_run late) in Hs. apply Hs.
    + apply reachable_inv_timers, reachable_run.
      now apply (reachable_step (Call u None)).
    + rewrite now_run, now_sendGamemode. lia.
  - intros e Hin He. destruct (no_inbound_In evs e Hq Hin He).
  - apply inv_objects_sendGamemode, reachable_inv_objects, Hreach.
Qed.

Lemma timeout_after_silence_witness :
  let st := run [Emit 0 EvAuth []] init in
  let evs := [Emit 0 EvEnd []; Elapse 2500; Call (js "Alex") None; Elapse 2500] in
  let late := [Emit 0 EvResponse (js "Set own game mode"); Elapse 9000] in
  calls_of 0 (run evs (sendGamemode (js "Steve") None st)) = [TIMEOUT] /\
  calls_of 0 (run late (run evs (sendGamemode (js "Steve") None st))) = [TIMEOUT].
Proof.
  intros st evs late.
  assert (Hreach : reachable st) by (eexists; reflexivity).
  assert (Hr : rconReady st = true) by reflexivity.
  assert (Hq : no_inbound evs = true) by reflexivity.
  assert (Hel : 5000 <= total_elapsed evs) by (vm_compute; discriminate).
  exact (@timeout_after_silence st (js "Steve") evs late Hreach Hr Hq Hel).
Defined.

(** ** The listeners of a waiting activation *)

Local Close Scope Z_scope.

Lemma object_with_object_eq o f st :
  o < length (objects st) -> object o (with_object o f st) = f (object o st).
Proof. intros H. unfold object, with_object; simpl. now apply nth_update_eq. Qed.

Lemma object_with_object_ne o o' f st :
  o' <> o -> object o (with_object o' f st) = object o st.
Proof. intros H. unfold object, with_object; simpl. now apply nth_update_ne. Qed.

Lemma length_objects_with_object o f st :
  length (objects (with_object o f st)) = length (objects st).
Proof. unfold with_object; simpl. apply update_length. Qed.

Lemma listens_same k o st st' :
  objects st' = objects st -> listens k o st -> listens k o st'.
Proof. intros H. unfold listens, object. now rewrite H. Qed.

Lemma listens_with_object k o o' f st :
  (forall e l, fn_of_activation k (l_fn l) = true -> In l e -> In l (f e)) ->
  listens k o st -> listens k o (with_object o' f st).
Proof.
  intros Hf (Ho & H1 & H2). unfold listens.
  rewrite length_objects_with_object. split; auto.
  destruct (Nat.eq_dec o' o) as [->|Hne].
  - rewrite object_with_object_eq by assumption.
    split; apply Hf; auto; simpl; apply Nat.eqb_refl.
  - now rewrite object_with_object_ne.
Qed.

Lemma listens_once k o o' ev f st :
  listens k o st -> listens k o (once o' ev f st).
Proof.
  apply listens_with_object. intros e l _ H. unfold em_add.
  apply in_or_app; now left.
Qed.

Lemma listens_removeListener k o o' ev f st :
  fn_of_activation k f = false ->
  listens k o st -> listens k o (removeListener o' ev f st).
Proof.
  intros Hf. apply listens_with_object. intros e l Hl H.
  apply em_removeListener_keeps; auto.
  unfold matches. apply andb_false_iff; right.
  destruct (l_fn l) as [| | | |j|j], f as [| | | |i|i]; simpl in *;
    try discriminate; try reflexivity;
    apply Nat.eqb_eq in Hl; subst j; rewrite Nat.eqb_sym; exact Hf.
Qed.

Lemma listens_run_fn k o f p st :
  listens k o st -> listens k o (run_fn f p st).
Proof. apply listens_same. apply run_fn_obj. Qed.

Lemma listens_invoke k o o' p st l :
  fn_of_activation k (l_fn l) = false ->
  listens k o st -> listens k o (invoke o' p st l).
Proof.
  intros Hf H. unfold invoke. apply listens_run_fn.
  destruct (l_once l); [|assumption].
  now apply listens_removeListener.
Qed.

Lemma listens_connectRcon k o st :
  listens k o st -> listens k o (connectRcon st).
Proof.
  intros (Ho & H1 & H2). unfold listens, object in *.
  rewrite objects_connectRcon, length_app, app_nth1 by assumption.
  repeat split; auto. lia.
Qed.

Lemma listens_run_timer k o f st :
  f <> TCmdTimeout k -> listens k o st -> listens k o (run_timer f st).
Proof.
  intros Hf H. destruct f as [|j]; simpl.
  - now apply listens_connectRcon.
  - destruct (get_handled j st) as [[|]|]; auto.
    assert (Hj : fn_of_activation k (FOnError j) = false)
      by (simpl; apply Nat.eqb_neq; congruence).
    eapply listens_same; [reflexivity|].
    apply listens_removeListener; [exact Hj|].
    apply listens_removeListener; [exact Hj|].
    revert H; apply listens_same; reflexivity.
Qed.

Lemma listens_fire k o st t :
  t_fn t <> TCmdTimeout k -> listens k o st -> listens k o (fire st t).
Proof.
  intros Hf H. unfold fire. apply listens_run_timer; [exact Hf|].
  revert H; apply listens_same; reflexivity.
Qed.

Lemma listens_sendGamemode k o u t st :
  k < length (handled st) ->
  listens k o st -> listens k o (sendGamemode u t st).
Proof.
  intros Hk H. unfold sendGamemode; cbv zeta.
  destruct (rconReady st); cbn [negb].
  - assert (Hj : fn_of_activation k (FOnError (length (handled st))) = false)
      by (simpl; apply Nat.eqb_neq; lia).
    eapply listens_same; [reflexivity|].
    assert (H2 : forall o1 o2,
               listens k o (once o2 EvError (FOnError (length (handled st)))
                              (once o1 EvResponse (FOnResponse (length (handled st)))
                                 (set_handled (handled st ++ [Some false]) st)))).
    { intros o1 o2. apply listens_once, listens_once.
      revert H; apply listens_same; reflexivity. }
    destruct t.
    + eapply listens_same; [reflexivity|].
      apply listens_removeListener; [exact Hj|].
      apply listens_removeListener; [exact Hj|].
      apply H2.
    + eapply listens_same; [reflexivity|]. apply H2.
  - revert H; apply listens_same; reflexivity.
Qed.

(** A dispatch registers both listeners on the current Rcon object. *)
Lemma listens_dispatch u st :
  inv_objects st -> rconReady st = true ->
  listens (length (handled st)) (rcon st) (sendGamemode u None st).
Proof.
  intros [Hr _] Hready. unfold sendGamemode; cbv zeta. rewrite Hready; cbn [negb].
  set (k := length (handled st)).
  set (st0 := set_handled (handled st ++ [Some false]) st).
  apply (@listens_same k (rcon st)
           (once (rcon st) EvError (FOnError k)
              (once (rcon st) EvResponse (FOnResponse k) st0)));
    [reflexivity|].
  assert (H0 : rcon st < length (objects st0)) by exact Hr.
  unfold listens, once.
  rewrite !length_objects_with_object.
  rewrite object_with_object_eq by (now rewrite length_objects_with_object).
  rewrite object_with_object_eq by assumption.
  unfold em_add. repeat split; auto.
  - apply in_or_app; left. apply in_or_app; right. now left.
  - apply in_or_app; right. now left.
Qed.

Lemma timers_run_fn_inv f p st x :
  In x (timers (run_fn f p st)) -> In x (timers st) \/ t_fn x = TReconnect.
Proof.
  destruct f as [| | | |k|k]; simpl; auto.
  - intros H. apply in_app_or in H as [H|[<-|[]]]; auto.
  - destruct (same_timers_resolve_once k (CbOk p) st) as [E _]. rewrite E; auto.
  - destruct (same_timers_resolve_once k (CbError p) st) as [E _]. rewrite E; auto.
Qed.

Lemma timers_sendGamemode_inv u t st x :
  In x (timers (sendGamemode u t st)) ->
  In x (timers st) \/ t_fn x = TCmdTimeout (length (handled st)).
Proof.
  unfold sendGamemode. destruct (rconReady st); cbn [negb]; auto.
  destruct t; intros H; apply in_app_or in H as [H|[<-|[]]]; auto.
Qed.

Lemma in_flight_invoke k o T o' p st l :
  fn_of_activation k (l_fn l) = false ->
  in_flight k o T st -> in_flight k o T (invoke o' p st l).
Proof.
  intros Hf (Hw & Hl & Ht). split; [|split].
  - now apply waiting_invoke.
  - now apply listens_invoke.
  - intros x Hx Hk. unfold invoke in Hx.
    apply timers_run_fn_inv in Hx as [Hx|Hx]; [|congruence].
    apply Ht; auto. now destruct (l_once l).
Qed.

Lemma not_inbound_listener k o ev p l :
  is_inbound (Emit o ev p) = false -> listener_ok l -> l_event l = ev ->
  fn_of_activation k (l_fn l) = false.
Proof.
  intros Hq Hok Hev. destruct (fn_of_activation k (l_fn l)) eqn:Hf; auto.
  rewrite (activation_listener_inbound k o p Hok Hev Hf) in Hq. discriminate.
Qed.

Lemma in_flight_step k o T st e :
  inv_objects st -> is_inbound e = false -> (now (step st e) < T)%Z ->
  in_flight k o T st -> in_flight k o T (step st e).
Proof.
  intros Hinv Hq Hnow (Hw & Hl & Ht). destruct e as [u t|o' ev p|d]; cbn [step] in *.
  - pose proof (get_handled_lt _ _ (proj1 Hw)) as Hk. split; [|split].
    + now apply waiting_sendGamemode.
    + now apply listens_sendGamemode.
    + intros x Hx Hf. apply timers_sendGamemode_inv in Hx as [Hx|Hx]; auto.
      rewrite Hx in Hf. injection Hf as Hf. lia.
  - unfold emit.
    apply (@fold_left_invariant _ _ (in_flight k o T)); [|now split].
    intros s l Hin Hs. apply in_flight_invoke; auto.
    apply em_listeners_In in Hin as [Hin Hev].
    apply (not_inbound_listener k o' p Hq (object_listener_ok _ _ Hinv Hin) Hev).
  - destruct (elapse_timers d st) as (Et & _ & En & _). cbv zeta in Et, En.
    rewrite En in Hnow.
    assert (Hdue : forall x, In x (filter (is_due (now st + Z.max 0 d)) (timers st)) ->
                             t_fn x <> TCmdTimeout k).
    { intros x Hx Hf. apply filter_In in Hx as [Hx Hd].
      apply (Ht _ Hx) in Hf. unfold is_due in Hd. apply Z.leb_le in Hd. lia. }
    assert (Htd : timeout_due k T (elapse d st)).
    { intros x Hx. rewrite Et in Hx.
      apply filter_In in Hx as [Hx _]. now apply Ht. }
    revert Htd. unfold elapse.
    set (st0 := set_timers _ st). intros Htd.
    assert (H0 : waiting k [] st0 /\ listens k o st0).
    { split; [revert Hw; apply waiting_reads_hc | revert Hl; apply listens_same];
        reflexivity. }
    apply (@fold_left_invariant _ _ (fun s => waiting k [] s /\ listens k o s)
             fire (filter (is_due (now st + Z.max 0 d)) (timers st))) in H0.
    + destruct H0 as [Hw' Hl']. split; [|split].
      * revert Hw'; apply waiting_reads_hc; reflexivity.
      * revert Hl'; apply listens_same; reflexivity.
      * exact Htd.
    + intros s x Hx [Hws Hls]. split.
      * apply waiting_fire; auto.
      * apply listens_fire; auto.
Qed.

Lemma in_flight_run k o T evs :
  forall st, inv_objects st -> no_inbound evs = true ->
             (now st + total_elapsed evs < T)%Z ->
             in_flight k o T st -> in_flight k o T (run evs st).
Proof.
  induction evs as [|e evs IH]; intros st Hinv Hq Hnow H; [exact H|].
  change (run (e :: evs) st) with (run evs (step st e)).
  unfold no_inbound in Hq. simpl in Hq. apply andb_true_iff in Hq as [He Hq].
  apply negb_true_iff in He.
  pose proof (total_elapsed_nonneg evs) as Hpos.
  assert (Hstep : (now (step st e) + total_elapsed evs
                   = now st + total_elapsed (e :: evs))%Z).
  { change (step st e) with (run [e] st).
    rewrite now_run. unfold total_elapsed; simpl.
    destruct e; lia. }
  apply IH; auto using inv_objects_step.
  - lia.
  - apply in_flight_step; auto. lia.
Qed.

Lemma fold_invoke_resolves k o ev p ls :
  ev = EvResponse \/ ev = EvError ->
  (forall l, In l ls -> l_event l = ev /\ listener_ok l) ->
  In (Listener ev true (fn_for ev k)) ls ->
  forall st, waiting k [] st ->
             settled k [arg_of ev p] (fold_left (invoke o p) ls st).
Proof.
  intros Hev. induction ls as [|l ls IH]; intros Hall Hin st Hw; [destruct Hin|].
  simpl. destruct (fn_of_activation k (l_fn l)) eqn:Hf.
  - apply (@fold_left_invariant _ _ (settled k [arg_of ev p])).
    + intros; now apply settled_invoke.
    + destruct (Hall l (or_introl eq_refl)) as [Hle [Hok _]].
      unfold invoke.
      assert (Hfn : l_fn l = fn_for ev k).
      { rewrite Hok in Hle.
        destruct (l_fn l) as [| | | |j|j]; simpl in Hf; try discriminate;
          apply Nat.eqb_eq in Hf; subst j;
          destruct Hev as [-> | ->]; simpl in *; congruence. }
      rewrite Hfn.
      set (st1 := if l_once l then _ else _).
      assert (Hw1 : waiting k [] st1).
      { unfold st1. destruct (l_once l); [|exact Hw].
        revert Hw; apply waiting_reads_hc; reflexivity. }
      destruct Hev as [-> | ->]; simpl; apply (waiting_resolve_eq _ Hw1).
  - apply IH.
    + intros l' Hl'. apply Hall. now right.
    + destruct Hin as [Hin|Hin]; auto. subst l.
      destruct Hev as [-> | ->]; simpl in Hf;
        rewrite Nat.eqb_refl in Hf; discriminate.
    + now apply waiting_invoke.
Qed.

(** The next ['response'] (or ['error']) event on the Rcon object resolves
    the waiting activation with the value the event carries. *)
Lemma emit_resolves k o ev p st :
  ev = EvResponse \/ ev = EvError ->
  inv_objects st -> waiting k [] st -> listens k o st ->
  settled k [arg_of ev p] (emit o ev p st).
Proof.
  intros Hev Hinv Hw (Ho & H1 & H2). unfold emit.
  apply fold_invoke_resolves; auto.
  - intros l Hl. apply em_listeners_In in Hl as [Hl He]. split; auto.
    exact (object_listener_ok _ _ Hinv Hl).
  - unfold em_listeners. apply filter_In.
    destruct Hev as [-> | ->]; simpl; auto.
Qed.

(** ** What the session is made of *)

Lemma same_session_refl st : same_session st st.
Proof. repeat split. Qed.

Lemma same_session_trans st1 st2 st3 :
  same_session st1 st2 -> same_session st2 st3 -> same_session st1 st3.
Proof.
  intros (A1 & A2 & A3 & A4 & A5 & A6 & A7 & A8 & A9)
         (B1 & B2 & B3 & B4 & B5 & B6 & B7 & B8 & B9).
  repeat split; congruence.
Qed.

Lemma same_session_resolve_once k a st : same_session st (resolve_once k a st).
Proof.
  unfold resolve_once. destruct (get_handled k st) as [[|]|]; repeat split.
Qed.

Lemma same_session_removeListener o ev f st :
  same_session st (removeListener o ev f st).
Proof. repeat split. apply length_objects_with_object. Qed.

Lemma same_session_invoke o p st l :
  listener_ok l -> l_event l = EvResponse \/ l_event l = EvError ->
  same_session st (invoke o p st l).
Proof.
  intros [Hev Honce] Hin. unfold invoke.
  eapply same_session_trans.
  - instantiate (1 := if l_once l then removeListener o (l_event l) (l_fn l) st
                      else st).
    destruct (l_once l);
      [apply same_session_removeListener | apply same_session_refl].
  - rewrite Hev in Hin.
    destruct (l_fn l) as [| | | |k|k]; simpl in Hin;
      try (destruct Hin; discriminate);
      try apply same_session_resolve_once; repeat split.
Qed.

Lemma same_session_emit o ev p st :
  ev = EvResponse \/ ev = EvError -> inv_objects st ->
  same_session st (emit o ev p st).
Proof.
  intros Hev Hinv. unfold emit.
  apply (@fold_left_invariant _ _ (same_session st));
    [|apply same_session_refl].
  intros s l Hl Hs. eapply same_session_trans; [exact Hs|].
  apply em_listeners_In in Hl as [Hl He].
  apply same_session_invoke.
  - exact (object_listener_ok _ _ Hinv Hl).
  - rewrite He. exact Hev.
Qed.

(** *** A reply reaches the caller as it is *)

Local Open Scope Z_scope.

Lemma in_flight_dispatch u st :
  reachable st -> rconReady st = true ->
  in_flight (length (handled st)) (rcon st) (now st + 5000)
    (sendGamemode u None st).
Proof.
  intros Hreach Hr.
  pose proof (reachable_inv_ids Hreach) as Hids.
  split; [|split].
  - split; [now apply sendGamemode_get_handled|].
    unfold calls_of. destruct (sendGamemode_sent u st Hr) as [_ ->].
    now apply calls_of_fresh.
  - apply listens_dispatch; auto using reachable_inv_objects.
  - intros x Hx Hf. rewrite (sendGamemode_timers u None st Hr) in Hx.
    apply in_app_or in Hx as [Hx|[<-|[]]]; [|reflexivity].
    destruct Hids as [_ Hids]. specialize (Hids _ _ Hx Hf). lia.
Qed.

(** The state in which a sent command waits for its reply: dispatched from
    a reachable state, followed by events other than ['response'] and
    ['error'] that take less than five seconds. *)
Lemma in_flight_before_timeout st u evs :
  reachable st -> rconReady st = true ->
  no_inbound evs = true -> total_elapsed evs < 5000 ->
  in_flight (length (handled st)) (rcon st) (now st + 5000)
    (run evs (sendGamemode u None st)).
Proof.
  intros Hreach Hr Hq Hel. apply in_flight_run; auto.
  - apply inv_objects_sendGamemode, reachable_inv_objects, Hreach.
  - rewrite now_sendGamemode. lia.
  - now apply in_flight_dispatch.
Qed.

(** C9: the transport answers a sent command with a ['response'] event
    carrying [txt]; the completion callback is called with exactly [txt],
    once, and later events do not change that. *)
Theorem response_text_round_trip
    (st : state) (u txt : jsstring) (evs late : list event) :
  reachable st -> rconReady st = true ->
  no_inbound evs = true -> total_elapsed evs < 5000 ->
  let k := length (handled st) in
  let st2 := run (evs ++ [Emit (rcon st) EvResponse txt])
                 (sendGamemode u None st) in
  calls_of k st2 = [CbOk txt] /\ calls_of k (run late st2) = [CbOk txt].
Proof.
  intros Hreach Hr Hq Hel k st2.
  destruct (in_flight_before_timeout u evs Hreach Hr Hq Hel) as (Hw & Hl & _).
  assert (Hs : settled k [CbOk txt] st2).
  { unfold st2. rewrite run_snoc.
    apply (@emit_resolves k (rcon st) EvResponse txt); auto.
    apply reachable_inv_objects, reachable_run.
    now apply (reachable_step (Call u None)). }
  split; [apply Hs | apply (settled_run late Hs)].
Qed.

Lemma response_text_round_trip_witness :
  let st := run [Emit 0 EvAuth []] init in
  let evs := [Elapse 1200] in
  let late := [Emit 0 EvResponse (js "other"); Elapse 5000] in
  let st2 := run (evs ++ [Emit 0 EvResponse (js "echo")])
                 (sendGamemode (js "echo") None st) in
  calls_of 0 st2 = [CbOk (js "echo")] /\
  calls_of 0 (run late st2) = [CbOk (js "echo")].
Proof.
  intros st evs late.
  assert (Hreach : reachable st) by (eexists; reflexivity).
  assert (Hr : rconReady st = true) by reflexivity.
  assert (Hq : no_inbound evs = true) by reflexivity.
  assert (Hel : total_elapsed evs < 5000) by reflexivity.
  exact (@response_text_round_trip st (js "echo") (js "echo") evs late
           Hreach Hr Hq Hel).
Defined.

(** *** ['error'] and ['end'] events *)

(** C6, as the code has it: an ['error'] event on the connection resolves
    the waiting command at once, with the error the event carries, and
    that is all: the flag stays, the connection handle stays, no timer is
    armed and no connection attempt is made. *)
Theorem error_event_resolves_without_teardown
    (st : state) (u err : jsstring) (evs : list event) :
  reachable st -> rconReady st = true ->
  no_inbound evs = true -> total_elapsed evs < 5000 ->
  let k := length (handled st) in
  let st2 := run evs (sendGamemode u None st) in
  let st3 := step st2 (Emit (rcon st) EvError err) in
  calls_of k st3 = [CbError err] /\
  rconReady st3 = rconReady st2 /\ rcon st3 = rcon st2 /\
  timers st3 = timers st2 /\ connects st3 = connects st2.
Proof.
  intros Hreach Hr Hq Hel k st2 st3.
  destruct (in_flight_before_timeout u evs Hreach Hr Hq Hel) as (Hw & Hl & _).
  assert (Hinv : inv_objects st2).
  { apply reachable_inv_objects, reachable_run.
    now apply (reachable_step (Call u None)). }
  split.
  - apply (@emit_resolves k (rcon st) EvError err); auto.
  - destruct (@same_session_emit (rcon st) EvError err st2 (or_intror eq_refl) Hinv)
      as (H1 & H2 & H3 & _ & _ & _ & H7 & _).
    repeat split; assumption.
Qed.

Lemma error_event_resolves_without_teardown_witness :
  let st := run [Emit 0 EvAuth []] init in
  let st2 := run [Elapse 100] (sendGamemode (js "Steve") None st) in
  let st3 := step st2 (Emit 0 EvError (js "ECONNRESET")) in
  calls_of 0 st3 = [CbError (js "ECONNRESET")] /\
  rconReady st3 = rconReady st2 /\ rcon st3 = rcon st2 /\
  timers st3 = timers st2 /\ connects st3 = connects st2.
Proof.
  intros st.
  assert (Hreach : reachable st) by (eexists; reflexivity).
  assert (Hr : rconReady st = true) by reflexivity.
  assert (Hq : no_inbound [Elapse 100] = true) by reflexivity.
  assert (Hel : total_elapsed [Elapse 100] < 5000) by reflexivity.
  exact (@error_event_resolves_without_teardown st (js "Steve")
           (js "ECONNRESET") [Elapse 100] Hreach Hr Hq Hel).
Defined.

(** C6 as stated fails: after the ['error'] event the session is still
    up and no reconnection has been scheduled. *)
Lemma transport_error_leaves_session_up :
  let st3 := step one_pending (Emit 0 EvError (js "ECONNRESET")) in
  calls_of 0 st3 = [CbError (js "ECONNRESET")] /\
  rconReady st3 = true /\ backoff_timers st3 = [] /\
  connects st3 = connects one_pending /\
  ~ (forall st o err,
       reachable st -> pending st <> [] ->
       rconReady (step st (Emit o EvError err)) = false /\
       backoff_timers (step st (Emit o EvError err)) <> []).
Proof.
  do 4 (split; [vm_compute; reflexivity|]).
  intros H.
  assert (Hreach : reachable one_pending) by (eexists; reflexivity).
  assert (Hp : pending one_pending <> []) by (vm_compute; discriminate).
  destruct (H one_pending 0%nat (js "ECONNRESET") Hreach Hp) as [H1 _].
  vm_compute in H1. discriminate.
Qed.

Lemma emit_end o p st :
  inv_objects st -> (o < length (objects st))%nat ->
  emit o EvEnd p st = run_fn FEnd p st.
Proof.
  intros [_ Hall] Ho. unfold emit, object.
  destruct (good_nth Hall Ho) as [_ ->]. reflexivity.
Qed.

(** C5, as the code has it: an ['end'] event clears the flag and arms one
    reconnection timer, five seconds ahead; it calls no completion callback
    and leaves every [handled] as it is, so a Pending Command stays pending.
    An ['error'] event changes nothing of the session. *)
Theorem end_event_clears_flag_and_arms_backoff
    (st : state) (o : nat) (p : jsstring) :
  reachable st -> (o < length (objects st))%nat ->
  let st' := step st (Emit o EvEnd p) in
  rconReady st' = false /\
  timers st' = timers st ++ [Timer (ntimers st) (now st + 5000) TReconnect] /\
  callbacks st' = callbacks st /\ handled st' = handled st /\
  pending st' = pending st /\
  rcon st' = rcon st /\ objects st' = objects st /\
  same_session st (step st (Emit o EvError p)).
Proof.
  intros Hreach Ho st'.
  pose proof (reachable_inv_objects Hreach) as Hinv.
  unfold st'. cbn [step]. rewrite (emit_end p Hinv Ho).
  repeat split; try reflexivity;
    apply (@same_session_emit o EvError p st (or_intror eq_refl) Hinv).
Qed.

Lemma end_event_clears_flag_and_arms_backoff_witness :
  let st' := step one_pending (Emit 0 EvEnd []) in
  rconReady st' = false /\
  timers st' = timers one_pending ++ [Timer 1 5000 TReconnect] /\
  callbacks st' = callbacks one_pending /\ handled st' = handled one_pending /\
  pending st' = pending one_pending /\
  rcon st' = rcon one_pending /\ objects st' = objects one_pending /\
  same_session one_pending (step one_pending (Emit 0 EvError [])).
Proof.
  assert (Hreach : reachable one_pending) by (eexists; reflexivity).
  assert (Ho : (0 < length (objects one_pending))%nat) by (vm_compute; lia).
  exact (@end_event_clears_flag_and_arms_backoff one_pending 0%nat [] Hreach Ho).
Defined.

(** C5 as stated fails: the ['end'] event does not fail the Pending
    Command, and an ['error'] event neither clears the flag nor arms a
    timer. *)
Lemma closed_event_leaves_command_pending :
  let st' := step one_pending (Emit 0 EvEnd []) in
  let st'' := step one_pending (Emit 0 EvError (js "ECONNRESET")) in
  pending one_pending = [0%nat] /\ pending st' = [0%nat] /\ callbacks st' = [] /\
  rconReady st'' = true /\ backoff_timers st'' = [] /\
  ~ (forall st o p,
       reachable st -> rconReady st = true -> (o < length (objects st))%nat ->
       pending (step st (Emit o EvEnd p)) = []).
Proof.
  do 5 (split; [vm_compute; reflexivity|]).
  intros H.
  assert (Hreach : reachable one_pending) by (eexists; reflexivity).
  assert (Ho : (0 < length (objects one_pending))%nat) by (vm_compute; lia).
  specialize (H one_pending 0%nat [] Hreach eq_refl Ho).
  vm_compute in H. discriminate.
Qed.

(** *** What the fallback timeout touches *)

Local Close Scope Z_scope.

Lemma object_out_of_range o f st :
  length (objects st) <= o -> objects (with_object o f st) = objects st.
Proof. intros H. unfold with_object; simpl. now apply update_out_of_range. Qed.

(** Unregistering a listener of activation [k] leaves every other
    registration where it is. *)
Lemma In_object_removeListener k o o' ev f l st :
  fn_of_activation k f = true -> fn_of_activation k (l_fn l) = false ->
  In l (object o (removeListener o' ev f st)) <-> In l (object o st).
Proof.
  intros Hf Hl. unfold removeListener.
  destruct (Nat.eq_dec o' o) as [->|Hne].
  - destruct (Nat.lt_ge_cases o (length (objects st))) as [Ho|Ho].
    + rewrite object_with_object_eq by assumption. split.
      * apply em_removeListener_incl.
      * intros H. apply em_removeListener_keeps; auto.
        unfold matches. apply andb_false_iff; right.
        destruct (l_fn l) as [| | | |j|j], f as [| | | |i|i]; simpl in *;
          try discriminate; try reflexivity;
          apply Nat.eqb_eq in Hf; subst i; exact Hl.
    + unfold object. now rewrite object_out_of_range.
  - now rewrite object_with_object_ne.
Qed.

(** C7: when the fallback timeout resolves a command, it calls that
    command's completion callback with 'RCON command timeout', sets its
    [handled] and removes its two listeners; the flag, the connection
    handle, the timers and the connection attempts stay as they are, and so
    does every other command. *)
Theorem timeout_only_clears_pending_command (st : state) (k : nat) :
  get_handled k st = Some false ->
  let st' := run_timer (TCmdTimeout k) st in
  calls_of k st' = calls_of k st ++ [TIMEOUT] /\
  get_handled k st' = Some true /\
  same_session st st' /\
  (forall j, j <> k ->
     get_handled j st' = get_handled j st /\ calls_of j st' = calls_of j st) /\
  (forall o l, fn_of_activation k (l_fn l) = false ->
     (In l (object o st') <-> In l (object o st))).
Proof.
  intros Hh st'. unfold st', run_timer. rewrite Hh.
  pose proof (get_handled_lt _ _ Hh) as Hk.
  set (st1 := put_handled k true st).
  set (st2 := removeListener (rcon st) EvResponse (FOnResponse k) st1).
  set (st3 := removeListener (rcon st) EvError (FOnError k) st2).
  split; [|split; [|split; [|split]]].
  - rewrite calls_of_callback_eq. reflexivity.
  - change (get_handled k (callback ?j ?a st3))
      with (get_handled k (put_handled k true st)).
    now apply get_handled_put_eq.
  - repeat split.
    change (objects (callback ?j ?a ?s)) with (objects s).
    unfold st3, st2, removeListener.
    now rewrite !length_objects_with_object.
  - intros j Hj. split.
    + change (get_handled j (callback ?i ?a st3))
        with (get_handled j (put_handled k true st)).
      now apply get_handled_put_ne.
    + now rewrite calls_of_callback_ne.
  - intros o l Hl.
    change (object o (callback ?j ?a st3)) with (object o st3).
    unfold st3. rewrite (@In_object_removeListener k); auto;
      [|simpl; apply Nat.eqb_refl].
    unfold st2. rewrite (@In_object_removeListener k); auto;
      [|simpl; apply Nat.eqb_refl].
    reflexivity.
Qed.

Lemma timeout_only_clears_pending_command_witness :
  let st := run [Emit 0 EvAuth []; Call (js "Steve") None; Call (js "Alex") None;
                 Emit 0 EvEnd []] init in
  calls_of 0 (run_timer (TCmdTimeout 0) st) = [TIMEOUT] /\
  same_session st (run_timer (TCmdTimeout 0) st) /\
  get_handled 1 (run_timer (TCmdTimeout 0) st) = Some false.
Proof.
  intros st.
  assert (Hh : get_handled 0 st = Some false) by reflexivity.
  destruct (@timeout_only_clears_pending_command st 0 Hh)
    as (H1 & _ & H3 & H4 & _).
  split; [exact H1 | split; [exact H3|]].
  destruct (H4 1) as [H5 _]; [discriminate | exact H5].
Defined.

(** ** Reconnection *)

Lemma arms_refl st : arms st st.
Proof.
  split; [exists []; split; [now rewrite app_nil_r | intros t []]|].
  repeat split; auto.
Qed.

Lemma arms_trans st1 st2 st3 : arms st1 st2 -> arms st2 st3 -> arms st1 st3.
Proof.
  intros ((m1 & E1 & I1) & N1 & F1 & C1 & T1 & O1)
         ((m2 & E2 & I2) & N2 & F2 & C2 & T2 & O2).
  split; [|repeat split; try congruence; lia].
  exists (m1 ++ m2). split; [now rewrite E2, E1, app_assoc|].
  intros t Ht. apply in_app_or in Ht as [Ht|Ht]; [auto|].
  apply I2 in Ht. lia.
Qed.

Lemma arms_same st st' :
  timers st' = timers st -> ntimers st' = ntimers st ->
  fired st' = fired st -> connects st' = connects st -> now st' = now st ->
  length (objects st') = length (objects st) -> arms st st'.
Proof.
  intros H1 H2 H3 H4 H5 H6.
  split; [exists []; split; [now rewrite app_nil_r | intros t []]|].
  repeat split; auto. lia.
Qed.

Lemma arms_setTimeout f d st : arms st (setTimeout f d st).
Proof.
  split; [|repeat split; simpl; lia].
  eexists; split; [reflexivity|].
  intros t [<-|[]]. simpl; lia.
Qed.

Lemma arms_resolve_once k a st : arms st (resolve_once k a st).
Proof.
  unfold resolve_once.
  destruct (get_handled k st) as [[|]|]; apply arms_same; reflexivity.
Qed.

Lemma arms_run_fn f p st : arms st (run_fn f p st).
Proof.
  destruct f as [| | | |k|k]; simpl;
    try apply arms_resolve_once; try (apply arms_same; reflexivity).
  eapply arms_trans; [|apply arms_setTimeout]. apply arms_same; reflexivity.
Qed.

Lemma arms_removeListener o ev f st : arms st (removeListener o ev f st).
Proof. apply arms_same; try reflexivity. apply length_objects_with_object. Qed.

Lemma arms_once o ev f st : arms st (once o ev f st).
Proof. apply arms_same; try reflexivity. apply length_objects_with_object. Qed.

Lemma arms_invoke o p st l : arms st (invoke o p st l).
Proof.
  unfold invoke. eapply arms_trans; [|apply arms_run_fn].
  destruct (l_once l); [apply arms_removeListener | apply arms_refl].
Qed.

Lemma arms_emit o ev p st : arms st (emit o ev p st).
Proof.
  unfold emit.
  apply (@fold_left_invariant _ _ (arms st)); [|apply arms_refl].
  intros s l _ Hs. eapply arms_trans; [exact Hs | apply arms_invoke].
Qed.

Lemma arms_sendGamemode u t st : arms st (sendGamemode u t st).
Proof.
  unfold sendGamemode; cbv zeta.
  destruct (rconReady st); cbn [negb]; [|apply arms_same; reflexivity].
  eapply arms_trans; [|apply arms_setTimeout].
  set (k := length (handled st)).
  set (st0 := set_handled (handled st ++ [Some false]) st).
  assert (H2 : arms st (once (rcon st) EvError (FOnError k)
                          (once (rcon st) EvResponse (FOnResponse k) st0))).
  { eapply arms_trans; [|apply arms_once].
    eapply arms_trans; [|apply arms_once].
    apply arms_same; reflexivity. }
  destruct t.
  - eapply arms_trans; [exact H2|].
    eapply arms_trans; [apply arms_removeListener|].
    eapply arms_trans; [apply arms_removeListener|].
    apply arms_same; reflexivity.
  - eapply arms_trans; [exact H2|]. apply arms_same; reflexivity.
Qed.

Lemma attempts_grow_refl st : attempts_grow st st.
Proof. split; auto. exists []; now rewrite app_nil_r. Qed.

Lemma attempts_grow_trans st1 st2 st3 :
  attempts_grow st1 st2 -> attempts_grow st2 st3 -> attempts_grow st1 st3.
Proof.
  intros [[m1 E1] L1] [[m2 E2] L2]. split; [|lia].
  exists (m1 ++ m2). now rewrite E2, E1, app_assoc.
Qed.

Lemma fire_reconnect st t :
  t_fn t = TReconnect ->
  connects (fire st t) = connects st ++ [(t_due t, length (objects st))] /\
  length (objects (fire st t)) = S (length (objects st)).
Proof.
  intros Hf. unfold fire. rewrite Hf. cbn [run_timer]. split; [reflexivity|].
  rewrite objects_connectRcon, length_app. simpl. lia.
Qed.

Lemma attempts_grow_fire st t : attempts_grow st (fire st t).
Proof.
  destruct (t_fn t) as [|k] eqn:Hf.
  - destruct (fire_reconnect st t Hf) as [E L]. split; [eauto | lia].
  - unfold fire. rewrite Hf. cbn [run_timer].
    set (st0 := set_fired _ _).
    destruct (get_handled k st0) as [[|]|];
      (split; [exists []; now rewrite app_nil_r|]); try apply Nat.le_refl.
    change (objects (callback ?j ?a ?s)) with (objects s).
    unfold removeListener. rewrite !length_objects_with_object.
    apply Nat.le_refl.
Qed.

Lemma attempts_grow_fold_fire l st : attempts_grow st (fold_left fire l st).
Proof.
  apply (@fold_left_invariant _ _ (attempts_grow st)); [|apply attempts_grow_refl].
  intros s t _ Hs. eapply attempts_grow_trans; [exact Hs | apply attempts_grow_fire].
Qed.

(** A reconnection timer that runs makes a connection attempt at its due
    time, with a new Rcon object. *)
Lemma fold_fire_reconnects l t :
  In t l -> t_fn t = TReconnect ->
  forall st, exists o, In (t_due t, o) (connects (fold_left fire l st)) /\
                       length (objects st) <= o.
Proof.
  intros Hin Hf. induction l as [|x l IH]; [destruct Hin|]. intros st. simpl.
  destruct Hin as [->|Hin].
  - destruct (fire_reconnect st t Hf) as [E _].
    destruct (attempts_grow_fold_fire l (fire st t)) as [[m Em] _].
    exists (length (objects st)). split; [|lia].
    rewrite Em, E. apply in_or_app; left. apply in_or_app; right. now left.
  - destruct (IH Hin (fire st x)) as (o & Ho & Hlen).
    exists o; split; auto.
    destruct (attempts_grow_fire st x) as [_ L]. lia.
Qed.

Local Open Scope Z_scope.

Lemma NoDup_map_inj A B (f : A -> B) l a b :
  NoDup (map f l) -> In a l -> In b l -> f a = f b -> a = b.
Proof.
  induction l as [|x l IH]; simpl; [contradiction|].
  intros Hnd Ha Hb Hf. inversion Hnd as [|? ? Hnin Hnd']; subst.
  destruct Ha as [->|Ha], Hb as [->|Hb]; auto.
  - exfalso. apply Hnin. rewrite Hf. now apply in_map.
  - exfalso. apply Hnin. rewrite <- Hf. now apply in_map.
Qed.

Lemma filter_has_id_notin id l :
  ~ In id (map fst l) -> filter (has_id id) l = [].
Proof.
  induction l as [|x l IH]; simpl; auto. intros H.
  unfold has_id at 1. destruct (Nat.eqb_spec (fst x) id) as [E|E].
  - exfalso. apply H. now left.
  - apply IH. intros Hin. apply H. now right.
Qed.

Lemma filter_has_id_unique l t :
  NoDup (map t_id l) -> In t l ->
  filter (has_id (t_id t)) (map stamp l) = [stamp t].
Proof.
  induction l as [|x l IH]; simpl; [contradiction|].
  intros Hnd Hin. inversion Hnd as [|? ? Hnin Hnd']; subst.
  unfold has_id at 1. simpl.
  destruct Hin as [->|Hin].
  - rewrite Nat.eqb_refl. f_equal.
    apply filter_has_id_notin. rewrite map_map. exact Hnin.
  - destruct (Nat.eqb_spec (t_id x) (t_id t)) as [E|E].
    + exfalso. apply Hnin. rewrite E. now apply in_map.
    + now apply IH.
Qed.

Lemma ran_fired_lt id due n0 st :
  inv_timers st -> ran id due n0 st -> (id < ntimers st)%nat.
Proof.
  intros (_ & _ & Hf & _) (E & _).
  assert (Hin : In (id, due) (filter (has_id id) (fired st)))
    by (rewrite E; now left).
  apply filter_In in Hin as [Hin _]. now apply Hf in Hin.
Qed.

Lemma backoff_arms id due n0 st st' :
  arms st st' -> inv_timers st ->
  armed id due st \/ ran id due n0 st ->
  armed id due st' \/ ran id due n0 st'.
Proof.
  intros ((m & Em & Im) & Hn & Hf & Hc & Hnow & _) Hinv [[Hin Hnf]|Hran].
  - left. split; [rewrite Em; apply in_or_app; now left | now rewrite Hf].
  - right. pose proof (ran_fired_lt Hinv Hran) as Hlt.
    destruct Hran as (E & Hnt & Hdue & Hconn).
    unfold ran. rewrite Hf, Hc, Hnow, Em. repeat split; auto.
    rewrite map_app. intros Hin. apply in_app_or in Hin as [Hin|Hin]; auto.
    apply in_map_iff in Hin as (t & Ht & Hin). apply Im in Hin. lia.
Qed.

Lemma connects_elapse d st :
  connects (elapse d st)
  = connects (fold_left fire (filter (is_due (now st + Z.max 0 d)) (timers st))
                (set_timers (filter (fun t => negb (is_due (now st + Z.max 0 d) t))
                               (timers st)) st)).
Proof. reflexivity. Qed.

Lemma backoff_elapse id due n0 d st :
  inv_timers st -> (n0 <= length (objects st))%nat ->
  armed id due st \/ ran id due n0 st ->
  armed id due (elapse d st) \/ ran id due n0 (elapse d st).
Proof.
  intros Hinv Hn0 H.
  pose proof Hinv as (Hd & Hnd & Hf & _).
  destruct (elapse_timers d st) as (Et & _ & En & Ef). cbv zeta in Et, En, Ef.
  set (target := now st + Z.max 0 d) in *.
  fold stamp in Ef.
  destruct H as [[Hin Hnf]|Hran].
  - destruct (is_due target (Timer id due TReconnect)) eqn:Hdue.
    + right. unfold ran. rewrite Et, En, Ef.
      assert (Hin' : In (Timer id due TReconnect) (filter (is_due target) (timers st)))
        by (apply filter_In; auto).
      split; [|split; [|split]].
      * rewrite filter_app, (filter_has_id_notin _ _ Hnf). simpl.
        apply (@filter_has_id_unique _ (Timer id due TReconnect)); auto.
        now apply NoDup_map_filter.
      * intros Hid. apply in_map_iff in Hid as (t & Hid & Ht).
        apply filter_In in Ht as [Ht Hnot].
        assert (t = Timer id due TReconnect)
          by (apply (NoDup_map_inj t_id (timers st)); auto).
        subst t. rewrite Hdue in Hnot. discriminate.
      * unfold is_due in Hdue; simpl in Hdue. now apply Z.leb_le in Hdue.
      * rewrite connects_elapse. fold target.
        destruct (@fold_fire_reconnects _ _ Hin' eq_refl
                    (set_timers (filter (fun t => negb (is_due target t)) (timers st)) st))
          as (o & Ho & Hlen).
        exists o. split; [exact Ho|]. simpl in Hlen.
        change (objects (set_timers ?a ?s)) with (objects s) in Hlen. lia.
    + left. split.
      * rewrite Et. apply filter_In; split; auto. now rewrite Hdue.
      * rewrite Ef, map_app. intros Hid. apply in_app_or in Hid as [Hid|Hid]; auto.
        rewrite map_map in Hid. apply in_map_iff in Hid as (t & Hid & Ht).
        apply filter_In in Ht as [Ht Hyes].
        assert (t = Timer id due TReconnect)
          by (apply (NoDup_map_inj t_id (timers st)); auto).
        subst t. rewrite Hdue in Hyes. discriminate.
  - right. destruct Hran as (E & Hnt & Hdue & (o & Ho & Hlen)).
    unfold ran. rewrite Et, En, Ef. split; [|split; [|split]].
    + rewrite filter_app, E.
      rewrite (filter_has_id_notin id (map stamp (filter (is_due target) (timers st)))).
      * reflexivity.
      * rewrite map_map. intros Hid. apply Hnt.
        apply in_map_iff in Hid as (t & Hid & Ht).
        apply filter_In in Ht as [Ht _]. apply in_map_iff. now exists t.
    + intros Hid. apply Hnt. apply in_map_iff in Hid as (t & Hid & Ht).
      apply filter_In in Ht as [Ht _]. apply in_map_iff. now exists t.
    + unfold target. lia.
    + rewrite connects_elapse. fold target.
      destruct (attempts_grow_fold_fire (filter (is_due target) (timers st))
                  (set_timers (filter (fun t => negb (is_due target t)) (timers st)) st))
        as [[m Em] _].
      exists o. split; auto. rewrite Em. apply in_or_app; now left.
Qed.

Lemma length_objects_step st e :
  (length (objects st) <= length (objects (step st e)))%nat.
Proof.
  destruct e as [u t|o ev p|d]; cbn [step].
  - destruct (arms_sendGamemode u t st) as (_ & _ & _ & _ & _ & E). lia.
  - destruct (arms_emit o ev p st) as (_ & _ & _ & _ & _ & E). lia.
  - unfold elapse. change (objects (set_now ?a ?s)) with (objects s).
    match goal with |- context [fold_left fire ?l ?s] =>
      destruct (attempts_grow_fold_fire l s) as [_ L] end.
    exact L.
Qed.

Lemma backoff_step id due n0 st e :
  inv_timers st -> (n0 <= length (objects st))%nat ->
  armed id due st \/ ran id due n0 st ->
  armed id due (step st e) \/ ran id due n0 (step st e).
Proof.
  intros Hinv Hn0 H. destruct e as [u t|o ev p|d]; cbn [step].
  - apply (backoff_arms (arms_sendGamemode u t st) Hinv H).
  - apply (backoff_arms (arms_emit o ev p st) Hinv H).
  - now apply backoff_elapse.
Qed.

Lemma backoff_run id due n0 evs :
  forall st, inv_timers st -> (n0 <= length (objects st))%nat ->
             armed id due st \/ ran id due n0 st ->
             armed id due (run evs st) \/ ran id due n0 (run evs st).
Proof.
  induction evs as [|e evs IH]; intros st Hinv Hn0 H; [exact H|].
  change (run (e :: evs) st) with (run evs (step st e)).
  apply IH.
  - now apply inv_timers_step.
  - pose proof (length_objects_step st e). lia.
  - now apply backoff_step.
Qed.

Lemma backoff_timers_app st t :
  length (filter (fun t => match t_fn t with TReconnect => true | _ => false end)
            (timers st ++ [t]))
  = (length (backoff_timers st)
     + (match t_fn t with TReconnect => 1 | _ => 0 end))%nat.
Proof.
  rewrite filter_app, length_app. unfold backoff_timers. simpl.
  now destruct (t_fn t).
Qed.

(** C8: an ['end'] event on an Rcon object arms exactly one reconnection
    timer, due five seconds later.  Until then it stays armed; once five
    seconds have passed it has run exactly once, at its due time, and
    [connectRcon] has made a new connection attempt at that time. *)
Theorem closed_event_arms_one_backoff_timer
    (st : state) (o : nat) (p : jsstring) (evs : list event) :
  reachable st -> (o < length (objects st))%nat ->
  let st1 := step st (Emit o EvEnd p) in
  let st2 := run evs st1 in
  let id := ntimers st in
  let due := now st + RECONNECT_DELAY in
  timers st1 = timers st ++ [Timer id due TReconnect] /\
  length (backoff_timers st1) = S (length (backoff_timers st)) /\
  (total_elapsed evs < 5000 ->
     In (Timer id due TReconnect) (timers st2) /\
     ~ In id (map fst (fired st2))) /\
  (5000 <= total_elapsed evs ->
     filter (has_id id) (fired st2) = [(id, due)] /\
     ~ In id (map t_id (timers st2)) /\
     exists o', In (due, o') (connects st2) /\ (length (objects st) <= o')%nat).
Proof.
  intros Hreach Ho st1 st2 id due.
  pose proof (reachable_inv_objects Hreach) as Hobj.
  pose proof (reachable_inv_timers Hreach) as Htm.
  assert (E1 : st1 = run_fn FEnd p st) by (apply emit_end; assumption).
  assert (Et : timers st1 = timers st ++ [Timer id due TReconnect])
    by (rewrite E1; reflexivity).
  assert (Harmed : armed id due st1).
  { split; [rewrite Et; apply in_or_app; right; now left|].
    rewrite E1. change (fired (run_fn FEnd p st)) with (fired st).
    intros Hin. apply in_map_iff in Hin as (x & Hx & Hin).
    destruct Htm as (_ & _ & Hf & _). apply Hf in Hin. unfold id in Hx. lia. }
  assert (Hreach1 : reachable st1) by now apply reachable_step.
  assert (H2 : armed id due st2 \/ ran id due (length (objects st)) st2).
  { apply backoff_run; auto using reachable_inv_timers.
    pose proof (length_objects_step st (Emit o EvEnd p)). exact H. }
  assert (Hnow : now st2 = now st + total_elapsed evs).
  { unfold st2. rewrite now_run. f_equal. unfold st1. cbn [step].
    apply now_emit. }
  pose proof (reachable_inv_timers (reachable_run evs Hreach1)) as (Hd2 & _).
  fold st2 in Hd2. unfold due, RECONNECT_DELAY in *.
  split; [exact Et|]. split.
  - unfold backoff_timers at 1. rewrite Et, backoff_timers_app. simpl. lia.
  - split.
    + intros Hlt. destruct H2 as [Ha|(_ & _ & Hdue & _)]; [exact Ha | lia].
    + intros Hge. destruct H2 as [[Hin _]|(Hf & Hnt & _ & Hc)].
      * apply Hd2 in Hin. simpl in Hin. lia.
      * auto.
Qed.

Lemma closed_event_arms_one_backoff_timer_witness :
  let st := run [Emit 0 EvAuth []; Emit 0 EvEnd []; Elapse 1000] init in
  let st2 := run [Elapse 4000; Call (js "Steve") None; Elapse 1000]
               (step st (Emit 0 EvEnd [])) in
  filter (has_id 1) (fired st2) = [(1%nat, 6000)] /\
  ~ In 1%nat (map t_id (timers st2)) /\
  exists o', In (6000, o') (connects st2) /\ (1 <= o')%nat.
Proof.
  intros st.
  assert (Hreach : reachable st) by (eexists; reflexivity).
  assert (Ho : (0 < length (objects st))%nat) by (vm_compute; lia).
  assert (Hel : 5000 <= total_elapsed
                          [Elapse 4000; Call (js "Steve") None; Elapse 1000])
    by (vm_compute; discriminate).
  exact (proj2 (proj2 (proj2
           (@closed_event_arms_one_backoff_timer st 0%nat []
              [Elapse 4000; Call (js "Steve") None; Elapse 1000] Hreach Ho)))
           Hel).
Defined.

(** ** The request handler *)

Local Close Scope Z_scope.

Lemma name_char_plain c :
  is_name_char c = true -> is_js_space c = false /\ (48 <= c <= 122)%N.
Proof.
  unfold is_name_char, is_js_space. intros H.
  repeat rewrite ?orb_true_iff, ?andb_true_iff, ?N.leb_le, ?N.eqb_eq in H.
  split; [|lia].
  apply not_true_is_false. intros H'.
  repeat rewrite ?orb_true_iff, ?andb_true_iff, ?N.leb_le, ?N.eqb_eq in H'.
  lia.
Qed.

Lemma valid_username_spec u :
  valid_username u = true ->
  3 <= length u <= 16 /\ forall c, In c u -> is_name_char c = true.
Proof.
  unfold valid_username. rewrite !andb_true_iff, !Nat.leb_le, forallb_forall.
  intros [[H1 H2] H3]. auto.
Qed.

Lemma trim_start_plain s :
  (forall c, In c s -> is_js_space c = false) -> trim_start s = s.
Proof.
  destruct s as [|c s]; simpl; auto. intros H.
  now rewrite (H c (or_introl eq_refl)).
Qed.

(** A user name that is valid as submitted is not changed by [trim]. *)
Lemma trim_valid s : valid_username s = true -> trim s = s.
Proof.
  intros Hv. destruct (valid_username_spec s Hv) as [_ Hc].
  assert (Hs : forall c, In c s -> is_js_space c = false)
    by (intros c Hin; now destruct (name_char_plain c (Hc c Hin))).
  unfold trim. rewrite (trim_start_plain s Hs), trim_start_plain.
  - apply rev_involutive.
  - intros c Hin. apply Hs. now apply in_rev.
Qed.

(** The handler either answers itself and leaves the state alone, or hands
    the trimmed, validated user name to [sendGamemode]. *)
Lemma handle_request_cases AUTH_PASSWORD req throws st :
  fst (handle_request AUTH_PASSWORD req throws st) = st \/
  (valid_username (trim (or_empty (param_username req))) = true /\
   rconReady st = true /\
   jsstring_eqb (or_empty (param_password req)) AUTH_PASSWORD = true /\
   fst (handle_request AUTH_PASSWORD req throws st)
   = sendGamemode (trim (or_empty (param_username req))) throws st).
Proof.
  unfold handle_request.
  destruct (jsstring_eqb (req_method req) (js "GET")
            && jsstring_eqb (req_url req) (js "/")); [now left|].
  destruct (jsstring_eqb (req_method req) (js "POST")
            && jsstring_eqb (req_url req) (js "/set")); [|now left].
  cbv zeta.
  destruct (jsstring_eqb AUTH_PASSWORD []); [now left|].
  destruct (jsstring_eqb (or_empty (param_password req)) AUTH_PASSWORD);
    cbn [negb]; [|now left].
  destruct (valid_username (trim (or_empty (param_username req))));
    cbn [negb]; [|now left].
  destruct (rconReady st); cbn [negb]; [|now left].
  right. repeat split.
Qed.

(** C10: whenever a request makes the program send something over RCON,
    what is sent is 'gamemode survival ' followed by the submitted user
    name, and that name consists of 3 to 16 characters of [A-Za-z0-9_]:
    no space, no separator, no control character. *)
Theorem handler_sends_only_validated_username
    (AUTH_PASSWORD : jsstring) (req : request) (throws : option jsstring)
    (st : state) :
  let st' := fst (handle_request AUTH_PASSWORD req throws st) in
  let username := trim (or_empty (param_username req)) in
  sent st' = sent st \/
  (sent st' = sent st ++ [(rcon st, js "gamemode survival " ++ username)] /\
   valid_username username = true /\
   3 <= length username <= 16 /\
   (forall c, In c username ->
      is_name_char c = true /\ is_js_space c = false /\ (48 <= c <= 122)%N) /\
   (valid_username (or_empty (param_username req)) = true ->
      username = or_empty (param_username req))).
Proof.
  intros st' username. unfold st'.
  destruct (handle_request_cases AUTH_PASSWORD req throws st)
    as [-> | (Hv & Hr & _ & ->)]; [now left|].
  fold username in Hv |- *.
  destruct throws as [e|].
  - left. now destruct (sendGamemode_throws username e st Hr).
  - right. destruct (sendGamemode_sent username st Hr) as [Hs _].
    destruct (valid_username_spec username Hv) as [Hlen Hchars].
    split; [exact Hs|]. split; [exact Hv|]. split; [exact Hlen|]. split.
    + intros c Hin. apply Hchars in Hin.
      destruct (name_char_plain c Hin) as [H1 H2]. auto.
    + apply trim_valid.
Qed.

Lemma handler_sends_only_validated_username_witness :
  let req := Request (js "POST") (js "/set")
               (Some (js " Steve ")) (Some (js "hunter2")) in
  let st' := fst (handle_request (js "hunter2") req None one_pending) in
  sent st' = sent one_pending ++ [(0, js "gamemode survival Steve")].
Proof.
  intros req st'.
  destruct (handler_sends_only_validated_username (js "hunter2") req None
              one_pending) as [H | (H & _)].
  - vm_compute in H. discriminate H.
  - exact H.
Defined.

(** On a well-formed request to a ready connection the command does go
    out. *)
Example handler_sends_for_Steve :
  sent (fst (handle_request (js "hunter2")
               (Request (js "POST") (js "/set")
                  (Some (js "  Steve ")) (Some (js "hunter2")))
               None one_pending))
  = sent one_pending ++ [(0, js "gamemode survival Steve")].
Proof. vm_compute. reflexivity. Qed.

(** A user name with a space in it is turned away with status 400. *)
Example handler_rejects_injection :
  handle_request (js "hunter2")
    (Request (js "POST") (js "/set")
       (Some (js "Steve creative")) (Some (js "hunter2")))
    None one_pending
  = (one_pending, Status 400).
Proof. vm_compute. reflexivity. Qed.

(** * Further properties of the client *)

(** ** One resolution when the send returns *)

Lemma sent_command_resolved_at_most_once_witness :
  let st := run [Emit 0 EvAuth []] init in
  (length (calls_of 0
             (run [Emit 0 EvResponse (js "ok"); Emit 0 EvError (js "late");
                   Elapse 5000; Emit 0 EvResponse (js "again")]
                (sendGamemode (js "Steve") None st))) <= 1)%nat.
Proof.
  intros st.
  assert (Hreach : reachable st) by (eexists; reflexivity).
  assert (Hr : rconReady st = true) by reflexivity.
  exact (@sent_command_resolved_at_most_once st (js "Steve")
           [Emit 0 EvResponse (js "ok"); Emit 0 EvError (js "late");
            Elapse 5000; Emit 0 EvResponse (js "again")] Hreach Hr).
Defined.

Lemma sent_command_resolved_exactly_once_witness :
  let st := run [Emit 0 EvAuth []] init in
  exists a, calls_of 0 (run [Elapse 2000; Emit 0 EvEnd []; Elapse 3000]
                          (sendGamemode (js "Steve") None st)) = [a].
Proof.
  intros st.
  assert (Hreach : reachable st) by (eexists; reflexivity).
  assert (Hr : rconReady st = true) by reflexivity.
  assert (Hel : (5000 <= total_elapsed [Elapse 2000; Emit 0 EvEnd []; Elapse 3000])%Z)
    by (vm_compute; discriminate).
  exact (@sent_command_resolved_exactly_once st (js "Steve")
           [Elapse 2000; Emit 0 EvEnd []; Elapse 3000] Hreach Hr Hel).
Defined.

(** ** A failed send leaves the listeners as they were *)

Lemma em_remove_last_match ev f e l :
  matches ev f l = true -> em_removeListener ev f (e ++ [l]) = e.
Proof.
  intros H. unfold em_removeListener. rewrite rev_app_distr. simpl.
  rewrite H. apply rev_involutive.
Qed.

Lemma em_remove_skip ev f e l :
  matches ev f l = false ->
  em_removeListener ev f (e ++ [l]) = em_removeListener ev f e ++ [l].
Proof.
  intros H. unfold em_removeListener. rewrite rev_app_distr. simpl.
  now rewrite H.
Qed.

Lemma update_update A i (x y : A) l : update i x (update i y l) = update i x l.
Proof.
  revert i; induction l as [|z l IH]; intros [|i]; simpl; auto.
  now rewrite IH.
Qed.

Lemma update_nth_same A i (d : A) l : update i (nth i l d) l = l.
Proof.
  revert i; induction l as [|z l IH]; intros [|i]; simpl; auto.
  now rewrite IH.
Qed.

Lemma objects_with_object_twice o f g st :
  o < length (objects st) ->
  objects (with_object o f (with_object o g st))
  = update o (f (g (object o st))) (objects st).
Proof.
  intros Ho. unfold with_object at 1. cbn [objects set_objects].
  rewrite object_with_object_eq by assumption.
  unfold with_object. cbn [objects set_objects]. apply update_update.
Qed.

(** Registering the two listeners of an activation and unregistering them
    again gives back the emitter. *)
Lemma em_register_unregister k e :
  em_removeListener EvError (FOnError k)
    (em_removeListener EvResponse (FOnResponse k)
       (em_add EvError true (FOnError k)
          (em_add EvResponse true (FOnResponse k) e))) = e.
Proof.
  unfold em_add.
  rewrite em_remove_skip by reflexivity.
  rewrite em_remove_last_match
    by (unfold matches; simpl; now rewrite Nat.eqb_refl).
  apply em_remove_last_match. unfold matches; simpl. now rewrite Nat.eqb_refl.
Qed.

(** X3: when [rcon.send] throws, the [catch] block undoes both
    registrations: every Rcon object has exactly the listeners it had before
    the call, nothing counts as sent, and the flag and the connection handle
    are as before. *)
Theorem failed_send_restores_listeners
    (st : state) (u e : jsstring) :
  reachable st -> rconReady st = true ->
  let st' := sendGamemode u (Some e) st in
  objects st' = objects st /\ sent st' = sent st /\
  rconReady st' = rconReady st /\ rcon st' = rcon st.
Proof.
  intros Hreach Hr st'.
  destruct (reachable_inv_objects Hreach) as [Hrc _].
  split; [|split; [|split]]; try (unfold st', sendGamemode; now rewrite Hr).
  unfold st', sendGamemode; cbv zeta. rewrite Hr; cbn [negb].
  set (k := length (handled st)).
  set (st0 := set_handled (handled st ++ [Some false]) st).
  change (objects (setTimeout ?f ?d (callback ?j ?a ?s))) with (objects s).
  change (rcon (once (rcon st0) EvResponse (FOnResponse k) st0)) with (rcon st).
  change (rcon st0) with (rcon st).
  unfold removeListener, once.
  assert (H0 : rcon st < length (objects st0)) by exact Hrc.
  rewrite objects_with_object_twice
    by (now rewrite !length_objects_with_object).
  rewrite object_with_object_eq by (now rewrite length_objects_with_object).
  rewrite object_with_object_eq by assumption.
  rewrite em_register_unregister.
  unfold with_object. cbn [objects set_objects].
  rewrite !update_update. unfold object.
  change (objects st0) with (objects st). apply update_nth_same.
Qed.

Lemma failed_send_restores_listeners_witness :
  let st := run [Emit 0 EvAuth []; Call (js "Alex") None] init in
  objects (sendGamemode (js "Steve") (Some (js "EPIPE")) st) = objects st.
Proof.
  intros st.
  assert (Hreach : reachable st) by (eexists; reflexivity).
  assert (Hr : rconReady st = true) by reflexivity.
  exact (proj1 (@failed_send_restores_listeners st (js "Steve") (js "EPIPE")
                  Hreach Hr)).
Defined.

(** ** The flag follows ['auth'] and ['end'] *)

Lemma Forall_objects_with_object (P : emitter -> Prop) o f st :
  (forall e, P e -> P (f e)) ->
  Forall P (objects st) -> Forall P (objects (with_object o f st)).
Proof.
  intros Hf Hall. unfold with_object, object; cbn [objects set_objects].
  destruct (Nat.lt_ge_cases o (length (objects st))) as [Ho|Ho].
  - apply Forall_update; auto. apply Hf.
    rewrite Forall_forall in Hall. apply Hall. now apply nth_In.
  - now rewrite update_out_of_range.
Qed.

Lemma inv_auth_same st st' : objects st' = objects st -> inv_auth st -> inv_auth st'.
Proof. intros H. unfold inv_auth. now rewrite H. Qed.

Lemma inv_auth_once o ev f st : inv_auth st -> inv_auth (once o ev f st).
Proof.
  apply Forall_objects_with_object. intros e H. unfold em_add.
  apply in_or_app; now left.
Qed.

Lemma inv_auth_removeListener o ev f st :
  ev <> EvAuth -> inv_auth st -> inv_auth (removeListener o ev f st).
Proof.
  intros Hev. apply Forall_objects_with_object. intros e H.
  apply em_removeListener_keeps; auto.
  unfold matches; simpl. now destruct ev.
Qed.

Lemma inv_auth_invoke o p st l :
  listener_ok l -> inv_auth st -> inv_auth (invoke o p st l).
Proof.
  intros [Hev Honce] H. unfold invoke.
  eapply inv_auth_same; [apply run_fn_obj|].
  destruct (l_once l); [|assumption].
  apply inv_auth_removeListener; auto.
  rewrite Hev. destruct (l_fn l); simpl in *; congruence.
Qed.

Lemma inv_auth_emit o ev p st :
  inv_objects st -> inv_auth st -> inv_auth (emit o ev p st).
Proof.
  intros Hinv H. unfold emit. apply fold_left_invariant; [|exact H].
  intros s l Hl Hs. apply inv_auth_invoke; auto.
  apply em_listeners_In in Hl as [Hl _].
  exact (object_listener_ok _ _ Hinv Hl).
Qed.

Lemma inv_auth_connectRcon st : inv_auth st -> inv_auth (connectRcon st).
Proof.
  intros H. unfold inv_auth. rewrite objects_connectRcon.
  apply Forall_app; split; auto. constructor; [|constructor]. now left.
Qed.

Lemma inv_auth_run_timer f st : inv_auth st -> inv_auth (run_timer f st).
Proof.
  intros H. destruct f as [|k]; simpl.
  - now apply inv_auth_connectRcon.
  - destruct (get_handled k st) as [[|]|]; auto.
    apply (@inv_auth_same
             (removeListener (rcon st) EvError (FOnError k)
                (removeListener (rcon st) EvResponse (FOnResponse k)
                   (put_handled k true st)))); [reflexivity|].
    apply inv_auth_removeListener; [discriminate|].
    apply inv_auth_removeListener; [discriminate|].
    revert H; apply inv_auth_same; reflexivity.
Qed.

Lemma inv_auth_elapse d st : inv_auth st -> inv_auth (elapse d st).
Proof.
  intros H. unfold elapse.
  eapply inv_auth_same; [reflexivity|].
  apply fold_left_invariant.
  - intros s t _ Hs. unfold fire. apply inv_auth_run_timer.
    revert Hs; apply inv_auth_same; reflexivity.
  - revert H; apply inv_auth_same; reflexivity.
Qed.

Lemma inv_auth_sendGamemode u t st :
  inv_auth st -> inv_auth (sendGamemode u t st).
Proof.
  intros H. unfold sendGamemode; cbv zeta.
  destruct (rconReady st); cbn [negb];
    [|revert H; apply inv_auth_same; reflexivity].
  set (k := length (handled st)).
  set (st0 := set_handled (handled st ++ [Some false]) st).
  assert (H2 : inv_auth (once (rcon st) EvError (FOnError k)
                           (once (rcon st) EvResponse (FOnResponse k) st0))).
  { apply inv_auth_once, inv_auth_once.
    revert H; apply inv_auth_same; reflexivity. }
  destruct t.
  - apply (@inv_auth_same
             (removeListener (rcon st) EvError (FOnError k)
                (removeListener (rcon st) EvResponse (FOnResponse k)
                   (once (rcon st) EvError (FOnError k)
                      (once (rcon st) EvResponse (FOnResponse k) st0)))));
      [reflexivity|].
    apply inv_auth_removeListener; [discriminate|].
    apply inv_auth_removeListener; [discriminate|]. exact H2.
  - revert H2; apply inv_auth_same; reflexivity.
Qed.

Lemma reachable_inv_auth st : reachable st -> inv_auth st.
Proof.
  apply reachable_ind'.
  - apply inv_auth_connectRcon. constructor.
  - intros s e Hreach H. destruct e as [u t|o ev p|d]; cbn [step].
    + now apply inv_auth_sendGamemode.
    + apply inv_auth_emit; auto using reachable_inv_objects.
    + now apply inv_auth_elapse.
Qed.

Lemma rconReady_sendGamemode u t st :
  rconReady (sendGamemode u t st) = rconReady st.
Proof.
  unfold sendGamemode. destruct (rconReady st) eqn:E; cbn [negb]; auto.
  now destruct t.
Qed.

Lemma rconReady_fire st t : rconReady (fire st t) = rconReady st.
Proof.
  unfold fire. destruct (t_fn t) as [|k]; cbn [run_timer]; auto.
  set (st0 := set_fired _ _).
  now destruct (get_handled k st0) as [[|]|].
Qed.

Lemma rconReady_elapse d st : rconReady (elapse d st) = rconReady st.
Proof.
  unfold elapse. change (rconReady (set_now ?t ?s)) with (rconReady s).
  apply (@fold_left_invariant _ _ (fun s => rconReady s = rconReady st));
    [|reflexivity].
  intros s t _ Hs. now rewrite rconReady_fire.
Qed.

Lemma fold_invoke_auth o p ls :
  (forall l, In l ls -> l_fn l = FAuth /\ l_once l = false) ->
  forall st, rconReady (fold_left (invoke o p) ls st)
             = match ls with [] => rconReady st | _ => true end.
Proof.
  induction ls as [|l ls IH]; intros Hall st; [reflexivity|].
  simpl. rewrite IH by (intros l' Hl'; apply Hall; now right).
  destruct (Hall l (or_introl eq_refl)) as [Hf Ho].
  destruct ls; auto. unfold invoke. now rewrite Hf, Ho.
Qed.

(** X4: [rconReady] changes on ['auth'] and ['end'] events only, and these
    set and clear it on whichever Rcon object they arrive, the current one
    or an earlier one.  Calls, ['response'] and ['error'] events, timeouts
    and reconnections leave it as it is. *)
Theorem flag_follows_auth_and_end (st : state) (e : event) :
  reachable st ->
  rconReady (step st e)
  = match e with
    | Emit o EvAuth _ =>
        if o <? length (objects st) then true else rconReady st
    | Emit o EvEnd _ =>
        if o <? length (objects st) then false else rconReady st
    | _ => rconReady st
    end.
Proof.
  intros Hreach.
  pose proof (reachable_inv_objects Hreach) as Hinv.
  pose proof (reachable_inv_auth Hreach) as Hauth.
  destruct e as [u t|o ev p|d]; cbn [step].
  - apply rconReady_sendGamemode.
  - destruct (Nat.ltb_spec o (length (objects st))) as [Ho|Ho].
    + destruct ev.
      * unfold emit. rewrite fold_invoke_auth.
        -- unfold inv_auth in Hauth. rewrite Forall_forall in Hauth.
           assert (Hin : In (Listener EvAuth false FAuth)
                           (em_listeners EvAuth (object o st))).
           { apply filter_In; split; [|reflexivity].
             apply Hauth. now apply nth_In. }
           destruct (em_listeners EvAuth (object o st)); [destruct Hin | reflexivity].
        -- intros l Hl. apply em_listeners_In in Hl as [Hl Hev].
           destruct (object_listener_ok _ _ Hinv Hl) as [H1 H2].
           rewrite Hev in H1. destruct (l_fn l); simpl in *; try discriminate.
           auto.
      * now destruct (@same_session_emit o EvResponse p st (or_introl eq_refl) Hinv).
      * now destruct (@same_session_emit o EvError p st (or_intror eq_refl) Hinv).
      * now rewrite (emit_end p Hinv Ho).
    + assert (E : emit o ev p st = st).
      { unfold emit, object. now rewrite nth_overflow. }
      rewrite E. now destruct ev.
  - apply rconReady_elapse.
Qed.

Lemma flag_follows_auth_and_end_witness :
  let st := run [Emit 0 EvAuth []; Emit 0 EvEnd []; Elapse 5000] init in
  rconReady (step st (Emit 0 EvAuth [])) = true.
Proof.
  intros st.
  assert (Hreach : reachable st) by (eexists; reflexivity).
  exact (@flag_follows_auth_and_end st (Emit 0 EvAuth []) Hreach).
Defined.

(** ** Connection attempts and Rcon objects *)

Lemma inv_connects_same st st' :
  connects st' = connects st -> length (objects st') = length (objects st) ->
  rcon st' = rcon st -> inv_connects st -> inv_connects st'.
Proof. intros H1 H2 H3. unfold inv_connects. now rewrite H1, H2, H3. Qed.

Lemma rcon_invoke o p st l : rcon (invoke o p st l) = rcon st.
Proof.
  unfold invoke. destruct (run_fn_obj (l_fn l) p
    (if l_once l then removeListener o (l_event l) (l_fn l) st else st)) as [E _].
  rewrite E. now destruct (l_once l).
Qed.

Lemma rcon_emit o ev p st : rcon (emit o ev p st) = rcon st.
Proof.
  unfold emit.
  apply (@fold_left_invariant _ _ (fun s => rcon s = rcon st)); [|reflexivity].
  intros s l _ Hs. now rewrite rcon_invoke.
Qed.

Lemma rcon_sendGamemode u t st : rcon (sendGamemode u t st) = rcon st.
Proof.
  unfold sendGamemode. destruct (rconReady st); cbn [negb]; auto.
  now destruct t.
Qed.

Lemma inv_connects_connectRcon st :
  map snd (connects st) = seq 0 (length (objects st)) ->
  inv_connects (connectRcon st).
Proof.
  intros H. unfold inv_connects.
  rewrite objects_connectRcon, rcon_connectRcon, length_app.
  change (connects (connectRcon st))
    with (connects st ++ [(now st, length (objects st))]).
  rewrite map_app, H. simpl. split; [|lia].
  replace (length (objects st) + 1) with (S (length (objects st))) by lia.
  now rewrite seq_S.
Qed.

Lemma inv_connects_fire st t : inv_connects st -> inv_connects (fire st t).
Proof.
  intros [Hc Hr]. unfold fire. destruct (t_fn t) as [|k]; cbn [run_timer].
  - apply inv_connects_connectRcon. exact Hc.
  - set (st0 := set_fired _ _).
    destruct (get_handled k st0) as [[|]|]; try (split; assumption).
    apply (@inv_connects_same st); try reflexivity; [|now split].
    change (objects (callback ?j ?a ?s)) with (objects s).
    unfold removeListener. now rewrite !length_objects_with_object.
Qed.

Lemma inv_connects_step st e : inv_connects st -> inv_connects (step st e).
Proof.
  intros H. destruct e as [u t|o ev p|d]; cbn [step].
  - destruct (arms_sendGamemode u t st) as (_ & _ & _ & Hc & _ & Hl).
    apply (@inv_connects_same st); auto using rcon_sendGamemode.
  - destruct (arms_emit o ev p st) as (_ & _ & _ & Hc & _ & Hl).
    apply (@inv_connects_same st); auto using rcon_emit.
  - unfold elapse.
    apply (@inv_connects_same
             (fold_left fire
                (filter (is_due (now st + Z.max 0 d)) (timers st))
                (set_timers
                   (filter (fun t => negb (is_due (now st + Z.max 0 d) t))
                      (timers st)) st))); try reflexivity.
    apply fold_left_invariant.
    + intros; now apply inv_connects_fire.
    + revert H. apply inv_connects_same; reflexivity.
Qed.

(** X5: every connection attempt constructs a new Rcon object and calls
    [connect()] on it, once; the global [rcon] always designates the object
    constructed last, so that is where a command is sent. *)
Theorem one_connect_per_object (st : state) :
  reachable st ->
  map snd (connects st) = seq 0 (length (objects st)) /\
  rcon st = length (objects st) - 1 /\
  forall u, rconReady st = true ->
    sent (sendGamemode u None st)
    = sent st ++ [(length (objects st) - 1, js "gamemode survival " ++ u)].
Proof.
  intros Hreach.
  assert (H : inv_connects st).
  { revert st Hreach. apply reachable_ind'.
    - now apply inv_connects_connectRcon.
    - intros; now apply inv_connects_step. }
  destruct H as [Hc Hr]. split; [exact Hc|]. split; [lia|].
  intros u Hready. destruct (sendGamemode_sent u st Hready) as [-> _].
  repeat f_equal. lia.
Qed.

Lemma one_connect_per_object_witness :
  let st := run [Emit 0 EvAuth []; Emit 0 EvEnd []; Elapse 5000;
                 Emit 1 EvEnd []; Elapse 5000] init in
  map snd (connects st) = seq 0 (length (objects st)) /\
  rcon st = length (objects st) - 1.
Proof.
  intros st.
  assert (Hreach : reachable st) by (eexists; reflexivity).
  destruct (@one_connect_per_object st Hreach) as (H1 & H2 & _).
  split; assumption.
Defined.

(** ** Listeners that stay behind *)

Lemma registered_same l o st st' :
  objects st' = objects st -> registered l o st -> registered l o st'.
Proof. intros H. unfold registered, object. now rewrite H. Qed.

Lemma registered_with_object l o o' f st :
  (o' = o -> forall e, In l e -> In l (f e)) ->
  registered l o st -> registered l o (with_object o' f st).
Proof.
  intros Hf [Ho Hin]. unfold registered.
  rewrite length_objects_with_object. split; auto.
  destruct (Nat.eq_dec o' o) as [E|E].
  - subst o'. rewrite object_with_object_eq by assumption. now apply Hf.
  - now rewrite object_with_object_ne.
Qed.

Lemma registered_once l o o' ev f st :
  registered l o st -> registered l o (once o' ev f st).
Proof.
  apply registered_with_object. intros _ e H. unfold em_add.
  apply in_or_app; now left.
Qed.

Lemma registered_removeListener l o o' ev f st :
  o' <> o \/ matches ev f l = false ->
  registered l o st -> registered l o (removeListener o' ev f st).
Proof.
  intros H. apply registered_with_object. intros E e Hin.
  destruct H as [H|H]; [contradiction|].
  now apply em_removeListener_keeps.
Qed.

Lemma registered_connectRcon l o st :
  registered l o st -> registered l o (connectRcon st).
Proof.
  intros [Ho Hin]. unfold registered, object in *.
  rewrite objects_connectRcon, length_app, app_nth1 by assumption.
  split; [lia | exact Hin].
Qed.

Lemma matches_other_activation ev ev' k j :
  j <> k -> matches ev (fn_for ev j) (Listener ev' true (fn_for ev' k)) = false.
Proof.
  intros H. unfold matches; simpl. apply andb_false_iff; right.
  assert (Nat.eqb k j = false) by (apply Nat.eqb_neq; congruence).
  destruct ev, ev'; simpl; auto.
Qed.

Lemma matches_other_event ev ev' f l :
  l_event l = ev' -> ev <> ev' -> matches ev f l = false.
Proof.
  intros <- H. unfold matches. apply andb_false_iff; left.
  destruct (l_event l), ev; simpl; congruence.
Qed.

Lemma stale_invoke k o ev' cs o' p st l :
  o' <> o \/ l_event l <> ev' ->
  stale k o ev' cs st -> stale k o ev' cs (invoke o' p st l).
Proof.
  intros Hne [Hs Hr]. split; [now apply settled_invoke|].
  unfold invoke. eapply registered_same; [apply run_fn_obj|].
  destruct (l_once l); [|assumption].
  apply registered_removeListener; auto.
  destruct Hne as [H|H]; [now left | right].
  now apply (@matches_other_event (l_event l) ev').
Qed.

Lemma stale_fire k o ev' cs st t :
  ev' = EvResponse \/ ev' = EvError ->
  stale k o ev' cs st -> stale k o ev' cs (fire st t).
Proof.
  intros Hev [Hs Hr]. split; [now apply settled_fire|].
  unfold fire. destruct (t_fn t) as [|j]; cbn [run_timer].
  - now apply registered_connectRcon.
  - set (st0 := set_fired _ _).
    assert (Hs0 : settled k cs st0)
      by (revert Hs; apply settled_reads_hc; reflexivity).
    destruct (get_handled j st0) as [[|]|] eqn:Hj; try exact Hr.
    assert (Hjk : j <> k).
    { intros ->. destruct Hs0 as (_ & Hne & _). contradiction. }
    apply (@registered_same _ _
             (removeListener (rcon st) EvError (FOnError j)
                (removeListener (rcon st) EvResponse (FOnResponse j)
                   (put_handled j true st)))); [reflexivity|].
    apply registered_removeListener;
      [right; apply (@matches_other_activation EvError ev' k j Hjk)|].
    apply registered_removeListener;
      [right; apply (@matches_other_activation EvResponse ev' k j Hjk)|].
    revert Hr; apply registered_same; reflexivity.
Qed.

Lemma stale_sendGamemode k o ev' cs u t st :
  stale k o ev' cs st -> stale k o ev' cs (sendGamemode u t st).
Proof.
  intros [Hs Hr]. split; [now apply settled_sendGamemode|].
  pose proof Hs as (Hk & _).
  unfold sendGamemode; cbv zeta.
  destruct (rconReady st); cbn [negb];
    [|revert Hr; apply registered_same; reflexivity].
  set (j := length (handled st)).
  assert (Hjk : j <> k) by (unfold j; lia).
  set (st0 := set_handled (handled st ++ [Some false]) st).
  assert (H2 : registered (Listener ev' true (fn_for ev' k)) o
                 (once (rcon st) EvError (FOnError j)
                    (once (rcon st) EvResponse (FOnResponse j) st0))).
  { apply registered_once, registered_once.
    revert Hr; apply registered_same; reflexivity. }
  destruct t.
  - apply (@registered_same _ _
             (removeListener (rcon st) EvError (FOnError j)
                (removeListener (rcon st) EvResponse (FOnResponse j)
                   (once (rcon st) EvError (FOnError j)
                      (once (rcon st) EvResponse (FOnResponse j) st0)))));
      [reflexivity|].
    apply registered_removeListener;
      [right; apply (@matches_other_activation EvError ev' k j Hjk)|].
    apply registered_removeListener;
      [right; apply (@matches_other_activation EvResponse ev' k j Hjk)|].
    exact H2.
  - revert H2; apply registered_same; reflexivity.
Qed.

Lemma stale_step k o ev' cs st e :
  ev' = EvResponse \/ ev' = EvError ->
  (forall p, e <> Emit o ev' p) ->
  stale k o ev' cs st -> stale k o ev' cs (step st e).
Proof.
  intros Hev Hne H. destruct e as [u t|o' ev p|d]; cbn [step].
  - now apply stale_sendGamemode.
  - unfold emit. apply fold_left_invariant; [|exact H].
    intros s l Hl Hs. apply stale_invoke; auto.
    apply em_listeners_In in Hl as [_ Hl].
    destruct (Nat.eq_dec o' o) as [->|E]; [right | now left].
    rewrite Hl. intros ->. now apply (Hne p).
  - unfold elapse.
    destruct H as [Hs Hr]. split; [now apply settled_elapse|].
    eapply registered_same; [reflexivity|].
    apply (@fold_left_invariant _ _ (stale k o ev' cs)).
    + intros; now apply stale_fire.
    + split; [revert Hs; apply settled_reads_hc
             | revert Hr; apply registered_same]; reflexivity.
Qed.

Lemma stale_run k o ev' cs evs :
  ev' = EvResponse \/ ev' = EvError ->
  (forall e p, In e evs -> e <> Emit o ev' p) ->
  forall st, stale k o ev' cs st -> stale k o ev' cs (run evs st).
Proof.
  intros Hev. induction evs as [|e evs IH]; intros Hne st H; [exact H|].
  change (run (e :: evs) st) with (run evs (step st e)).
  apply IH.
  - intros e' p Hin. apply Hne. now right.
  - apply stale_step; auto. intros p. apply Hne. now left.
Qed.

(** X6: a command is resolved by a ['response'] event (or by an ['error']
    event); its listener for the other of the two events is not removed
    then, and it stays registered on that Rcon object through everything
    that follows, the command's own timeout included, until an event of
    that other kind arrives there. *)
Theorem resolved_command_keeps_other_listener
    (st : state) (u p : jsstring) (ev : evname) (evs late : list event) :
  reachable st -> rconReady st = true ->
  no_inbound evs = true -> (total_elapsed evs < 5000)%Z ->
  ev = EvResponse \/ ev = EvError ->
  (forall e q, In e late -> e <> Emit (rcon st) (other_event ev) q) ->
  let k := length (handled st) in
  let st3 := run (evs ++ Emit (rcon st) ev p :: late) (sendGamemode u None st) in
  calls_of k st3 = [arg_of ev p] /\
  In (Listener (other_event ev) true (fn_for (other_event ev) k))
     (object (rcon st) st3).
Proof.
  intros Hreach Hr Hq Hel Hev Hlate k st3.
  destruct (in_flight_before_timeout u evs Hreach Hr Hq Hel)
    as (Hw & (Ho & H1 & H2) & _).
  set (st2 := run evs (sendGamemode u None st)) in *.
  assert (Hinv : inv_objects st2).
  { apply reachable_inv_objects, reachable_run.
    now apply (reachable_step (Call u None)). }
  assert (Hother : other_event ev = EvResponse \/ other_event ev = EvError)
    by (destruct Hev as [-> | ->]; simpl; auto).
  assert (Hst : stale k (rcon st) (other_event ev) [arg_of ev p]
                  (step st2 (Emit (rcon st) ev p))).
  { split.
    - apply emit_resolves; auto. now split.
    - cbn [step]. unfold emit.
      apply (@fold_left_invariant _ _
               (registered (Listener (other_event ev) true
                              (fn_for (other_event ev) k)) (rcon st))).
      + intros s l Hl Hs. unfold invoke.
        eapply registered_same; [apply run_fn_obj|].
        destruct (l_once l); [|assumption].
        apply registered_removeListener; auto. right.
        apply em_listeners_In in Hl as [_ Hl].
        apply (@matches_other_event (l_event l) (other_event ev)); auto.
        rewrite Hl. destruct Hev as [-> | ->]; discriminate.
      + split; auto. destruct Hev as [-> | ->]; assumption. }
  pose proof (@stale_run k (rcon st) (other_event ev) [arg_of ev p] late
                Hother Hlate _ Hst) as Hfin.
  assert (E : st3 = run late (step st2 (Emit (rcon st) ev p))).
  { unfold st3, st2, run. now rewrite fold_left_app. }
  rewrite E. destruct Hfin as [(_ & _ & Hc) [_ Hin]]. split; assumption.
Qed.

Lemma resolved_command_keeps_other_listener_witness :
  let st := run [Emit 0 EvAuth []] init in
  let late := [Elapse 5000; Call (js "Alex") None;
               Emit 0 EvResponse (js "done"); Elapse 9000] in
  In (Listener EvError true (FOnError 0))
     (object 0 (run ([Elapse 10] ++ Emit 0 EvResponse (js "ok") :: late)
                  (sendGamemode (js "Steve") None st))).
Proof.
  intros st late.
  assert (Hreach : reachable st) by (eexists; reflexivity).
  assert (Hr : rconReady st = true) by reflexivity.
  assert (Hq : no_inbound [Elapse 10] = true) by reflexivity.
  assert (Hel : (total_elapsed [Elapse 10] < 5000)%Z) by reflexivity.
  assert (Hlate : forall e q, In e late -> e <> Emit (rcon st) (other_event EvResponse) q).
  { intros e q Hin. unfold late in Hin. simpl in Hin.
    destruct Hin as [<-|[<-|[<-|[<-|[]]]]]; discriminate. }
  exact (proj2 (@resolved_command_keeps_other_listener st (js "Steve") (js "ok")
                  EvResponse [Elapse 10] late Hreach Hr Hq Hel
                  (or_introl eq_refl) Hlate)).
Defined.

(** * Properties of the request handler *)

(** ** When a command is dispatched *)

Lemma jsstring_eqb_eq a b : jsstring_eqb a b = true <-> a = b.
Proof.
  unfold jsstring_eqb. destruct (list_eq_dec N.eq_dec a b); split; congruence.
Qed.

Lemma jsstring_eqb_neq a b : jsstring_eqb a b = false <-> a <> b.
Proof.
  unfold jsstring_eqb. destruct (list_eq_dec N.eq_dec a b); split; congruence.
Qed.

(** X7: the handler calls [sendGamemode] exactly when the request is a POST
    to /set, AUTH_PASSWORD is configured, the submitted password equals it,
    the trimmed user name is valid and the connection is ready; it then
    writes nothing itself.  In every other case it writes one answer and
    leaves the RCON state untouched. *)
Theorem dispatch_conditions
    (AUTH_PASSWORD : jsstring) (req : request) (throws : option jsstring)
    (st : state) :
  let username := trim (or_empty (param_username req)) in
  let accepted :=
    req_method req = js "POST" /\ req_url req = js "/set" /\
    AUTH_PASSWORD <> [] /\ or_empty (param_password req) = AUTH_PASSWORD /\
    valid_username username = true /\ rconReady st = true in
  (accepted ->
     handle_request AUTH_PASSWORD req throws st
     = (sendGamemode username throws st, Deferred (length (handled st))) /\
     respond AUTH_PASSWORD req st = None) /\
  (~ accepted ->
     exists r, respond AUTH_PASSWORD req st = Some r /\
               handle_request AUTH_PASSWORD req throws st
               = (st, Status (r_status r))).
Proof.
  intros username accepted. unfold accepted, handle_request, respond.
  fold username.
  destruct (jsstring_eqb (req_method req) (js "GET")) eqn:Eget.
  - apply jsstring_eqb_eq in Eget.
    destruct (jsstring_eqb (req_url req) (js "/")) eqn:Eroot; cbn [andb].
    + split; [|eauto]. intros (Hm & _). rewrite Hm in Eget. discriminate Eget.
    + split; [intros (Hm & _); rewrite Hm in Eget; discriminate Eget|].
      rewrite Eget. cbn [jsstring_eqb]. intros _.
      assert (E : jsstring_eqb (js "GET") (js "POST") = false) by reflexivity.
      rewrite E. cbn [andb]. eauto.
  - cbn [andb].
    destruct (jsstring_eqb (req_method req) (js "POST")) eqn:Epost;
      [|split; [intros (Hm & _); apply jsstring_eqb_neq in Epost; contradiction
               | cbn [andb]; eauto]].
    destruct (jsstring_eqb (req_url req) (js "/set")) eqn:Eset; cbn [andb];
      [|split; [intros (_ & Hu & _); apply jsstring_eqb_neq in Eset; contradiction
               | eauto]].
    apply jsstring_eqb_eq in Epost, Eset.
    destruct (jsstring_eqb AUTH_PASSWORD []) eqn:Eauth;
      [split; [intros (_ & _ & Ha & _); apply jsstring_eqb_eq in Eauth;
               contradiction | eauto]|].
    apply jsstring_eqb_neq in Eauth.
    destruct (jsstring_eqb (or_empty (param_password req)) AUTH_PASSWORD) eqn:Epw;
      cbn [negb];
      [|split; [intros (_ & _ & _ & Hp & _); apply jsstring_eqb_neq in Epw;
                contradiction | eauto]].
    apply jsstring_eqb_eq in Epw.
    destruct (valid_username username) eqn:Ev; cbn [negb];
      [|split; [intros (_ & _ & _ & _ & Hv & _); discriminate Hv | eauto]].
    destruct (rconReady st) eqn:Er; cbn [negb];
      [|split; [intros (_ & _ & _ & _ & _ & Hr); discriminate Hr | eauto]].
    split; [auto|]. intros Hn. exfalso. apply Hn. repeat split; auto.
Qed.

(** ** White space around the user name *)

Lemma trim_start_spaces ws s :
  forallb is_js_space ws = true -> trim_start (ws ++ s) = trim_start s.
Proof.
  induction ws as [|c ws IH]; simpl; auto.
  intros H. apply andb_true_iff in H as [Hc Hws]. rewrite Hc. auto.
Qed.

Lemma trim_start_name s :
  s <> [] -> (forall c, In c s -> is_name_char c = true) ->
  forall t, trim_start (s ++ t) = s ++ t.
Proof.
  intros Hne Hc t. destruct s as [|c s]; [contradiction|]. simpl.
  destruct (name_char_plain c (Hc c (or_introl eq_refl))) as [-> _].
  reflexivity.
Qed.

(** X8: white space and line terminators before and after a valid user
    name are dropped by the handler: the request is treated exactly as if
    the bare name had been submitted. *)
Theorem surrounding_whitespace_ignored
    (AUTH_PASSWORD : jsstring) (m url : jsstring) (pw : option jsstring)
    (ws1 u ws2 : jsstring) (throws : option jsstring) (st : state) :
  forallb is_js_space ws1 = true -> forallb is_js_space ws2 = true ->
  valid_username u = true ->
  trim (ws1 ++ u ++ ws2) = u /\
  handle_request AUTH_PASSWORD (Request m url (Some (ws1 ++ u ++ ws2)) pw)
    throws st
  = handle_request AUTH_PASSWORD (Request m url (Some u) pw) throws st.
Proof.
  intros H1 H2 Hv.
  destruct (valid_username_spec u Hv) as [Hlen Hc].
  assert (Hne : u <> []) by (intros ->; simpl in Hlen; lia).
  assert (Ht : trim (ws1 ++ u ++ ws2) = u).
  { unfold trim. rewrite trim_start_spaces by assumption.
    rewrite trim_start_name by assumption.
    rewrite rev_app_distr, trim_start_spaces.
    - rewrite <- (app_nil_r (rev u)), trim_start_name, app_nil_r.
      + apply rev_involutive.
      + intros E. apply Hne. rewrite <- (rev_involutive u), E. reflexivity.
      + intros c Hin. apply Hc. now apply in_rev.
    - rewrite forallb_forall in *. intros c Hin. apply H2. now apply in_rev. }
  split; [exact Ht|].
  unfold handle_request. cbn [param_username param_password req_method req_url or_empty].
  now rewrite Ht, (trim_valid u Hv).
Qed.

Lemma surrounding_whitespace_ignored_witness :
  trim (js "  " ++ js "Steve" ++ nl) = js "Steve".
Proof.
  assert (H1 : forallb is_js_space (js "  ") = true) by reflexivity.
  assert (H2 : forallb is_js_space nl = true) by reflexivity.
  assert (Hv : valid_username (js "Steve") = true) by reflexivity.
  exact (proj1 (@surrounding_whitespace_ignored [] [] [] None (js "  ")
                  (js "Steve") nl None init H1 H2 Hv)).
Defined.

(** ** From the request to its answer *)

Lemma respond_none_dispatch AUTH_PASSWORD req throws st :
  respond AUTH_PASSWORD req st = None ->
  rconReady st = true /\
  handle_request AUTH_PASSWORD req throws st
  = (sendGamemode (trim (or_empty (param_username req))) throws st,
     Deferred (length (handled st))).
Proof.
  unfold respond, handle_request.
  destruct (jsstring_eqb (req_method req) (js "GET")
            && jsstring_eqb (req_url req) (js "/")); [discriminate|].
  destruct (jsstring_eqb (req_method req) (js "POST")
            && jsstring_eqb (req_url req) (js "/set")); [|discriminate].
  cbv zeta.
  destruct (jsstring_eqb AUTH_PASSWORD []); [discriminate|].
  destruct (jsstring_eqb (or_empty (param_password req)) AUTH_PASSWORD);
    cbn [negb]; [|discriminate].
  destruct (valid_username (trim (or_empty (param_username req))));
    cbn [negb]; [|discriminate].
  destruct (rconReady st); cbn [negb]; [|discriminate].
  auto.
Qed.

Local Open Scope Z_scope.

Lemma silence_settles_timeout st u evs :
  reachable st -> rconReady st = true ->
  no_inbound evs = true -> 5000 <= total_elapsed evs ->
  settled (length (handled st)) [TIMEOUT] (run evs (sendGamemode u None st)).
Proof.
  intros Hreach Hr Hq Hel.
  pose proof (@tracked_dispatch (eq TIMEOUT) u st
                (reachable_inv_ids Hreach) Hr) as Ht.
  apply (@tracked_run _ _ _ evs eq_refl) in Ht.
  - apply tracked_after_deadline in Ht.
    + now destruct Ht as (a & <- & Hs).
    + apply reachable_inv_timers, reachable_run.
      now apply (reachable_step (Call u None)).
    + rewrite now_run, now_sendGamemode. lia.
  - intros e Hin He. destruct (no_inbound_In evs e Hq Hin He).
  - apply inv_objects_sendGamemode, reachable_inv_objects, Hreach.
Qed.

(** X9: a request that the handler has passed on and whose command gets no
    ['response'] and no ['error'] event for five seconds is answered once,
    with status 500 and the message 'Failed: RCON command timeout'; events
    that come later add no answer. *)
Theorem unanswered_request_gets_timeout
    (AUTH_PASSWORD : jsstring) (req : request) (st : state)
    (evs late : list event) :
  reachable st -> respond AUTH_PASSWORD req st = None ->
  no_inbound evs = true -> 5000 <= total_elapsed evs ->
  let username := trim (or_empty (param_username req)) in
  let k := length (handled st) in
  let st1 := run evs (fst (handle_request AUTH_PASSWORD req None st)) in
  let timeout :=
    Response 500 (js "text/html")
      (renderForm (js "Failed: RCON command timeout") username) in
  answers username k st1 = [timeout] /\
  answers username k (run late st1) = [timeout].
Proof.
  intros Hreach Hnone Hq Hel username k st1 timeout.
  destruct (respond_none_dispatch AUTH_PASSWORD req None st Hnone) as [Hr E].
  unfold st1. rewrite E. cbn [fst]. fold username.
  pose proof (silence_settles_timeout username evs Hreach Hr Hq Hel) as Hs.
  pose proof (settled_run late Hs) as Hs'.
  destruct Hs as (_ & _ & Hc), Hs' as (_ & _ & Hc').
  unfold answers. fold k in Hc, Hc'. now rewrite Hc, Hc'.
Qed.

Lemma unanswered_request_gets_timeout_witness :
  let st := run [Emit 0 EvAuth []] init in
  answers (js "Steve") 0
    (run [Elapse 5000] (fst (handle_request (js "hunter2") steve_request None st)))
  = [Response 500 (js "text/html")
       (renderForm (js "Failed: RCON command timeout") (js "Steve"))].
Proof.
  intros st.
  assert (Hreach : reachable st) by (eexists; reflexivity).
  assert (Hnone : respond (js "hunter2") steve_request st = None) by reflexivity.
  assert (Hq : no_inbound [Elapse 5000] = true) by reflexivity.
  assert (Hel : 5000 <= total_elapsed [Elapse 5000]) by (vm_compute; discriminate).
  exact (proj1 (@unanswered_request_gets_timeout (js "hunter2") steve_request st
                  [Elapse 5000] [] Hreach Hnone Hq Hel)).
Defined.

Lemma contains_ci_nil p : p <> [] -> contains_ci p [] = false.
Proof. destruct p; [contradiction | reflexivity]. Qed.

(** X10: a request that the handler has passed on and whose command is
    answered by the connection, with a ['response'] or an ['error'] event,
    before the timeout gets exactly one answer, the one the completion
    callback makes from the value of that event: 500 for an error, 400 when
    the reply says 'No player was found' in any letter case, 200
    otherwise. *)
Theorem request_answered_from_event
    (AUTH_PASSWORD : jsstring) (req : request) (st : state)
    (ev : evname) (p : jsstring) (evs late : list event) :
  reachable st -> respond AUTH_PASSWORD req st = None ->
  no_inbound evs = true -> total_elapsed evs < 5000 ->
  ev = EvResponse \/ ev = EvError ->
  let username := trim (or_empty (param_username req)) in
  let k := length (handled st) in
  let st3 := run (evs ++ Emit (rcon st) ev p :: late)
               (fst (handle_request AUTH_PASSWORD req None st)) in
  answers username k st3 = [completion username (arg_of ev p)] /\
  r_status (completion username (arg_of ev p))
  = match ev with
    | EvError => 500%nat
    | _ => if contains_ci (js "No player was found") p then 400%nat else 200%nat
    end.
Proof.
  intros Hreach Hnone Hq Hel Hev username k st3.
  destruct (respond_none_dispatch AUTH_PASSWORD req None st Hnone) as [Hr E].
  split.
  - unfold st3. rewrite E. cbn [fst]. fold username.
    destruct (in_flight_before_timeout username evs Hreach Hr Hq Hel)
      as (Hw & Hl & _).
    set (st2 := run evs (sendGamemode username None st)) in *.
    assert (Hinv : inv_objects st2).
    { apply reachable_inv_objects, reachable_run.
      now apply (reachable_step (Call username None)). }
    pose proof (@emit_resolves k (rcon st) ev p st2 Hev Hinv Hw Hl) as Hs.
    apply (settled_run late) in Hs.
    assert (E3 : run (evs ++ Emit (rcon st) ev p :: late)
                   (sendGamemode username None st)
                 = run late (emit (rcon st) ev p st2)).
    { unfold st2, run. now rewrite fold_left_app. }
    rewrite E3. destruct Hs as (_ & _ & Hc). unfold answers. now rewrite Hc.
  - destruct Hev as [-> | ->]; [|reflexivity]. simpl.
    destruct p as [|c p]; [reflexivity|]. cbn [is_empty negb andb].
    now destruct (contains_ci (js "No player was found") (c :: p)).
Qed.

Lemma request_answered_from_event_witness :
  let st := run [Emit 0 EvAuth []] init in
  let st3 := run ([Elapse 40] ++
                  Emit 0 EvResponse (js "no PLAYER was found") :: [Elapse 9000])
               (fst (handle_request (js "hunter2") steve_request None st)) in
  answers (js "Steve") 0 st3
  = [completion (js "Steve") (CbOk (js "no PLAYER was found"))] /\
  r_status (completion (js "Steve") (CbOk (js "no PLAYER was found"))) = 400%nat.
Proof.
  intros st.
  assert (Hreach : reachable st) by (eexists; reflexivity).
  assert (Hnone : respond (js "hunter2") steve_request st = None) by reflexivity.
  assert (Hq : no_inbound [Elapse 40] = true) by reflexivity.
  assert (Hel : total_elapsed [Elapse 40] < 5000) by reflexivity.
  exact (@request_answered_from_event (js "hunter2") steve_request st
           EvResponse (js "no PLAYER was found") [Elapse 40] [Elapse 9000]
           Hreach Hnone Hq Hel (or_introl eq_refl)).
Defined.

Local Close Scope Z_scope.

(** ** Reading the request body *)

Lemma on_data_bound u chunk : length (up_body (on_data u chunk)) <= 2048.
Proof.
  unfold on_data; cbv zeta.
  destruct (Nat.ltb_spec 2048 (length (up_body u ++ chunk))); simpl; lia.
Qed.

Lemma fold_on_data_bound chunks u :
  length (up_body u) <= 2048 ->
  length (up_body (fold_left on_data chunks u)) <= 2048.
Proof.
  apply (@fold_left_invariant _ _ (fun u => length (up_body u) <= 2048)).
  intros v c _ _. apply on_data_bound.
Qed.

(** X11: whatever chunks arrive, and also when more arrive after a 413,
    the text kept in [body] is never longer than 2048 code units. *)
Theorem body_never_exceeds_limit (chunks : list jsstring) :
  length (up_body (receive chunks)) <= 2048.
Proof.
  unfold receive. apply fold_on_data_bound. simpl. lia.
Qed.

Lemma fold_on_data_small chunks :
  forall b n, length (b ++ concat chunks) <= 2048 ->
              fold_left on_data chunks (Upload b n)
              = Upload (b ++ concat chunks) n.
Proof.
  induction chunks as [|c chunks IH]; intros b n H; simpl.
  - now rewrite app_nil_r.
  - simpl in H. rewrite app_assoc in H.
    unfold on_data at 2; cbn [up_body up_rejected].
    pose proof H as H'. rewrite length_app in H'.
    destruct (Nat.ltb_spec 2048 (length (b ++ c))); [lia|].
    rewrite IH by assumption. now rewrite app_assoc.
Qed.

Lemma fold_on_data_unrejected chunks :
  forall u, up_rejected (fold_left on_data chunks u) = 0 ->
            up_rejected u = 0 /\
            up_body (fold_left on_data chunks u) = up_body u ++ concat chunks.
Proof.
  induction chunks as [|c chunks IH]; intros u H; simpl in *.
  - now rewrite app_nil_r.
  - destruct (IH _ H) as [H0 Hb]. rewrite Hb. clear IH H Hb.
    unfold on_data in *; cbv zeta in *.
    destruct (Nat.ltb_spec 2048 (length (up_body u ++ c)));
      cbn [up_rejected up_body] in *; [discriminate|].
    now rewrite app_assoc.
Qed.

(** X12: the ['data'] listener answers 413 for no chunk exactly when the
    chunks together have at most 2048 code units, and then [body] is all of
    them, in order, with nothing lost. *)
Theorem small_body_kept_whole (chunks : list jsstring) :
  (up_rejected (receive chunks) = 0 <-> length (concat chunks) <= 2048) /\
  (length (concat chunks) <= 2048 -> up_body (receive chunks) = concat chunks).
Proof.
  unfold receive. split; [split|].
  - intros H. destruct (fold_on_data_unrejected chunks _ H) as [_ Hb].
    assert (Hle : length (up_body (fold_left on_data chunks (Upload [] 0))) <= 2048)
      by (apply fold_on_data_bound; simpl; lia).
    rewrite Hb in Hle. exact Hle.
  - intros H. now rewrite (fold_on_data_small chunks [] 0 H).
  - intros H. now rewrite (fold_on_data_small chunks [] 0 H).
Qed.

(** X13: the chunk with which the text received so far first exceeds 2048
    code units makes the listener drop all of it and answer 413; what is
    read after that starts from the empty text. *)
Theorem oversized_body_dropped (pre post : list jsstring) (c : jsstring) :
  length (concat pre) <= 2048 < length (concat pre) + length c ->
  receive (pre ++ [c]) = Upload [] 1 /\
  receive (pre ++ c :: post) = fold_left on_data post (Upload [] 1).
Proof.
  intros [Hpre Hc].
  assert (E : receive (pre ++ [c]) = Upload [] 1).
  { unfold receive. rewrite fold_left_app.
    rewrite (fold_on_data_small pre [] 0) by exact Hpre. simpl.
    unfold on_data; cbn [up_body up_rejected].
    destruct (Nat.ltb_spec 2048 (length (concat pre ++ c))) as [H|H]; auto.
    rewrite length_app in H. lia. }
  split; [exact E|].
  unfold receive in *. rewrite fold_left_app in *. simpl in *. now rewrite E.
Qed.

Lemma oversized_body_dropped_witness :
  receive ([repeat 97%N 2000] ++ [repeat 98%N 49]) = Upload [] 1.
Proof.
  assert (H : length (concat [repeat 97%N 2000]) <= 2048
              < length (concat [repeat 97%N 2000]) + length (repeat 98%N 49))
    by (vm_compute; split; [apply Nat.leb_le | apply Nat.ltb_lt]; reflexivity).
  exact (proj1 (@oversized_body_dropped [repeat 97%N 2000] [] (repeat 98%N 49) H)).
Defined.

(** ** The page *)

Lemma count_app c a b : count c (a ++ b) = count c a + count c b.
Proof. apply count_occ_app. Qed.

Lemma count_replace_all_same c by_ s :
  count c by_ = 0 -> count c (replace_all c by_ s) = 0.
Proof.
  intros H. induction s as [|x s IH]; [reflexivity|].
  unfold replace_all in *. cbn [flat_map]. rewrite count_app, IH.
  destruct (N.eqb_spec x c) as [E|E]; [lia|].
  unfold count. cbn [count_occ]. now destruct (N.eq_dec x c).
Qed.

Lemma count_replace_all_other c d by_ s :
  c <> d -> count c by_ = 0 -> count c (replace_all d by_ s) = count c s.
Proof.
  intros Hne H. induction s as [|x s IH]; [reflexivity|].
  unfold replace_all in *. cbn [flat_map]. rewrite count_app, IH.
  change (x :: s) with ([x] ++ s). rewrite (count_app c [x] s).
  destruct (N.eqb_spec x d) as [E|E]; [|reflexivity].
  subst x. rewrite H. unfold count. cbn [count_occ].
  destruct (N.eq_dec d c); [congruence | reflexivity].
Qed.

(** X14: the page has as many ['<'] as the page with no message and no
    user name, and two more for the [<div>] when there is a message:
    neither the message nor the user name puts a ['<'] into it. *)
Theorem page_has_no_foreign_lt (message username : jsstring) :
  count 60 (renderForm message username)
  = count 60 (renderForm [] []) + (if is_empty message then 0 else 2).
Proof.
  assert (Hu : count 60 (escape_username username) = 0).
  { unfold escape_username.
    rewrite count_replace_all_other by (try reflexivity; discriminate).
    now apply count_replace_all_same. }
  assert (Hm : count 60 (message_block message)
               = if is_empty message then 0 else 2).
  { destruct message as [|c m]; [reflexivity|].
    unfold message_block. rewrite !count_app.
    rewrite (@count_replace_all_same 60 (js "&lt;") (c :: m)) by reflexivity.
    cbn [is_empty].
    now destruct (starts_with (js "Success") (c :: m)). }
  unfold renderForm. rewrite !count_app, Hu, Hm.
  change (message_block []) with (@nil N).
  change (escape_username []) with (@nil N).
  change (count 60 []) with 0. lia.
Qed.

(** X15: the page repeats every double quote of the message and of the
    user name as it is: it has as many double quotes as the page with no
    message and no user name, two more for the [<div>] when there is a
    message, and those of the message and of the user name.  The user name
    stands inside a double-quoted attribute value. *)
Theorem page_repeats_double_quotes (message username : jsstring) :
  count 34 (renderForm message username)
  = count 34 (renderForm [] []) + (if is_empty message then 0 else 2)
    + count 34 message + count 34 username.
Proof.
  assert (Hu : count 34 (escape_username username) = count 34 username).
  { unfold escape_username.
    rewrite !count_replace_all_other by (try reflexivity; discriminate).
    reflexivity. }
  assert (Hm : count 34 (message_block message)
               = (if is_empty message then 0 else 2) + count 34 message).
  { destruct message as [|c m]; [reflexivity|].
    unfold message_block. rewrite !count_app.
    rewrite (@count_replace_all_other 34 60 (js "&lt;") (c :: m))
      by (try reflexivity; discriminate).
    cbn [is_empty].
    destruct (starts_with (js "Success") (c :: m));
      change (count 34 (js "<div class=")) with 0;
      change (count 34 dq) with 1;
      change (count 34 (js ">")) with 0;
      change (count 34 (js "</div>")) with 0;
      [change (count 34 (js "ok")) with 0 | change (count 34 (js "msg")) with 0];
      lia. }
  unfold renderForm. rewrite !count_app, Hu, Hm.
  change (message_block []) with (@nil N).
  change (escape_username []) with (@nil N).
  change (count 34 []) with 0. lia.
Qed.
